(** * ApplicationsAPI: the [/applications] resource of an ARI client

    A shallow embedding of [src/api/ApplicationsAPI.js].  The class holds a
    base url and a request function pre-bound to basic-auth credentials
    ([rp.defaults]); its four methods build an options object and hand it to
    that request function.

    The embedding follows the code down to the options object handed to the
    request function: which method, which uri, which [qs].  How the request
    library writes [qs] into the url and talks HTTP is not part of the class.
    The JavaScript built-ins the code calls ([encodeURIComponent],
    template-literal string conversion, [Array.prototype.concat],
    [Array.prototype.join]) are embedded after ECMA-262. *)

From Stdlib Require Import NArith ZArith Ascii String List Lia.
From stdpp Require Import base option list strings gmap.

Set Warnings "-register-all".
Local Open Scope N_scope.

(** ** JavaScript strings

    A JavaScript string is a sequence of 16-bit code units. *)

Definition code_unit := N.
Definition jsstring := list code_unit.

(** Every element is a 16-bit code unit. *)
Definition is_jsstring (s : jsstring) : Prop := Forall (λ c, c < 65536) s.

(** An ASCII literal of the source as a string of code units. *)
Definition lit (s : string) : jsstring :=
  map N_of_ascii (list_ascii_of_string s).

(** ** JavaScript values

    The values a caller can put in a property of [params], as far as the
    string conversions below tell them apart: [undefined], [null], booleans,
    strings and arrays of such values.  Numbers and nested objects are left
    out. *)

Inductive value : Type :=
  | JUndefined
  | JNull
  | JBoolean (b : bool)
  | JString (s : jsstring)
  | JArray (elems : list value).

(** The element-wise loop of [Array.prototype.join]: [undefined] and [null]
    elements contribute the empty string, every other element its string
    conversion [tostr]; [sep] goes between consecutive elements. *)
Definition join_with (tostr : value → jsstring) (sep : jsstring)
  : list value → jsstring :=
  fix go (l : list value) : jsstring :=
    match l with
    | [] => []
    | x :: rest =>
        let next :=
          match x with
          | JUndefined | JNull => []
          | _ => tostr x
          end in
        match rest with
        | [] => next
        | _ :: _ => next ++ sep ++ go rest
        end
    end.

(** [ToString]: an array converts through [join] with the default
    separator, a comma. *)
Fixpoint ToString (v : value) : jsstring :=
  match v with
  | JUndefined => lit "undefined"
  | JNull => lit "null"
  | JBoolean true => lit "true"
  | JBoolean false => lit "false"
  | JString s => s
  | JArray elems => join_with ToString (lit ",") elems
  end.

(** [arr.join(sep)] *)
Definition Array_join (arr : list value) (sep : jsstring) : jsstring :=
  join_with ToString sep arr.

(** [arr.concat(item)]: an array argument is spread, anything else is
    appended as one element. *)
Definition Array_concat (arr : list value) (item : value) : list value :=
  match item with
  | JArray elems => arr ++ elems
  | _ => arr ++ [item]
  end.

(** ** [encodeURIComponent] *)

Inductive exn : Type :=
  | URIError
  | TypeError.

(** The characters [Encode] leaves alone: ASCII letters, decimal digits and
    the marks [- _ . ! ~ * ' ( )]. *)
Definition uriUnescaped (c : code_unit) : bool :=
  ((65 <=? c) && (c <=? 90))
  || ((97 <=? c) && (c <=? 122))
  || ((48 <=? c) && (c <=? 57))
  || existsb (N.eqb c) (lit "-_.!~*'()").

Definition isLeadingSurrogate (c : code_unit) : bool :=
  (0xD800 <=? c) && (c <=? 0xDBFF).

Definition isTrailingSurrogate (c : code_unit) : bool :=
  (0xDC00 <=? c) && (c <=? 0xDFFF).

Definition UTF16SurrogatePairToCodePoint (lead trail : code_unit) : N :=
  (lead - 0xD800) * 0x400 + (trail - 0xDC00) + 0x10000.

(** The UTF-8 transformation of a code point. *)
Definition utf8_octets (cp : N) : list N :=
  if cp <? 0x80 then [cp]
  else if cp <? 0x800 then
    [N.lor 0xC0 (N.shiftr cp 6); N.lor 0x80 (N.land cp 0x3F)]
  else if cp <? 0x10000 then
    [N.lor 0xE0 (N.shiftr cp 12);
     N.lor 0x80 (N.land (N.shiftr cp 6) 0x3F);
     N.lor 0x80 (N.land cp 0x3F)]
  else
    [N.lor 0xF0 (N.shiftr cp 18);
     N.lor 0x80 (N.land (N.shiftr cp 12) 0x3F);
     N.lor 0x80 (N.land (N.shiftr cp 6) 0x3F);
     N.lor 0x80 (N.land cp 0x3F)].

Definition hex_digit (d : N) : code_unit :=
  if d <? 10 then 48 + d else 55 + d.

(** One octet as [%XX], upper-case hexadecimal. *)
Definition pct_octet (b : N) : jsstring :=
  [37; hex_digit (N.shiftr b 4); hex_digit (N.land b 15)].

Definition pct_code_point (cp : N) : jsstring :=
  concat (map pct_octet (utf8_octets cp)).

(** [Encode(string, unescapedSet)] of ECMA-262 with the unescaped set of
    [encodeURIComponent]; [None] is the URIError thrown at an unpaired
    surrogate. *)
Fixpoint Encode (s : jsstring) : option jsstring :=
  match s with
  | [] => Some []
  | c :: rest =>
      if uriUnescaped c then cons c <$> Encode rest
      else if isTrailingSurrogate c then None
      else if isLeadingSurrogate c then
        match rest with
        | [] => None
        | c2 :: rest2 =>
            if isTrailingSurrogate c2 then
              app (pct_code_point (UTF16SurrogatePairToCodePoint c c2))
                <$> Encode rest2
            else None
        end
      else app (pct_code_point c) <$> Encode rest
  end.

Definition encodeURIComponent (uriComponent : value) : exn + jsstring :=
  match Encode (ToString uriComponent) with
  | Some r => inr r
  | None => inl URIError
  end.

(** ** Objects passed as [params]

    A [params] object is a finite map from property names to values; reading
    a property that is not there gives [undefined].  An omitted argument is
    [None], which the default parameter [params = {}] turns into the empty
    object.  Every method is called with an object or with nothing. *)

Definition prop (o : gmap string value) (k : string) : value :=
  default JUndefined (o !! k).

Definition default_params (params : option (gmap string value))
  : gmap string value :=
  default ∅ params.

(** ** The request function

    What the client hands to the request library, and what it gets back. *)

Inductive Method : Type := GET | POST | DELETE.

(** The options object of one call: [{ method, uri, qs }]. *)
Record Options : Type := {
  method : Method;
  uri : jsstring;
  qs : option (list (string * jsstring))
}.

(** The options bound once by [rp.defaults]: [{ auth: { username, password },
    json: true }]. *)
Record Defaults : Type := {
  auth : value * value;
  json : bool
}.

(** A dispatched request: the bound defaults together with the options of
    the call. *)
Record Request : Type := {
  bound : Defaults;
  options : Options
}.

(** What comes back for a dispatched request: an HTTP response, or no
    response at all. *)
Inductive Reply (Body : Type) : Type :=
  | HttpResponse (statusCode : Z) (body : Body)
  | TransportFailure (cause : jsstring).

Inductive Reason (Body : Type) : Type :=
  | StatusCodeError (statusCode : Z) (error : Body)
  | RequestError (cause : jsstring).

(** A promise, by the way it settles. *)
Inductive Promise (Body : Type) : Type :=
  | Resolved (result : Body)
  | Rejected (reason : Reason Body).

Arguments HttpResponse {Body} statusCode body.
Arguments TransportFailure {Body} cause.
Arguments StatusCodeError {Body} statusCode error.
Arguments RequestError {Body} cause.
Arguments Resolved {Body} result.
Arguments Rejected {Body} reason.

(** Status codes are three-digit integers; the 2xx class is 200..299. *)
Definition is2xx (statusCode : Z) : bool :=
  ((200 <=? statusCode) && (statusCode <=? 299))%Z.

(** Modelled from the spec: the request library (request-promise-native)
    is not among the sources.  This is how it settles the promise of a
    request whose options leave [simple] and [resolveWithFullResponse] at
    their defaults, as every call of this class does: a 2xx response
    resolves with the parsed body, any other response rejects with an error
    ([StatusCodeError]) carrying the status code and the body, and a
    transport failure rejects with the error of the transport
    ([RequestError]). *)
Definition rp_settle {Body : Type} (r : Reply Body) : Promise Body :=
  match r with
  | HttpResponse statusCode body =>
      if is2xx statusCode then Resolved body
      else Rejected (StatusCodeError statusCode body)
  | TransportFailure cause => Rejected (RequestError cause)
  end.

(** ** The client object and the effects of a method call *)

(** The properties of [this]: a property that was never assigned reads as
    [undefined]; [_request], once assigned, is a function made by
    [rp.defaults] and is known by the options bound in it. *)
Record Client : Type := {
  _baseUrl : value;
  _request : option Defaults
}.

(** The object as [new] hands it to the constructor. *)
Definition blank : Client := {| _baseUrl := JUndefined; _request := None |}.

(** The state a method call runs in: the object [this], and the requests
    dispatched so far, oldest first. *)
Record World : Type := {
  this : Client;
  wire : list Request
}.

(** A computation either throws or returns, and leaves a world behind. *)
Definition M (A : Type) : Type := World → (exn + A) * World.

#[export] Instance M_ret : MRet M := λ A (a : A) w, (inr a, w).

#[export] Instance M_bind : MBind M := λ A B (f : A → M B) (m : M A) w,
  match m w with
  | (inr a, w') => f a w'
  | (inl e, w') => (inl e, w')
  end.

(** A pure step that may throw. *)
Definition lift {A : Type} (r : exn + A) : M A := λ w, (r, w).

(** Read a property of [this]. *)
Definition read_this {A : Type} (field : Client → A) : M A :=
  λ w, (inr (field (this w)), w).

(** Assign the properties of [this]. *)
Definition write_this (c : Client) : M unit :=
  λ w, (inr tt, {| this := c; wire := wire w |}).

(** What a computation returned or threw, and the requests it dispatched. *)
Definition outcome {A : Type} (m : M A) (w : World) : exn + A := (m w).1.

Definition dispatched {A : Type} (m : M A) (w : World) : list Request :=
  drop (length (wire w)) (wire (m w).2).

Module ApplicationsAPI.

Section Methods.

Context {Body : Type}.

(** The remote end: its reply to a request may depend on the requests it
    has seen before. *)
Variable server : list Request → Request → Reply Body.

(** Calling [this._request] with the options of one call.  A function made
    by [rp.defaults] dispatches the request once and returns its promise;
    calling a property that holds no function throws a TypeError. *)
Definition rp_call (f : option Defaults) (opts : Options)
  : M (Promise Body) :=
  λ w,
    match f with
    | Some d =>
        let r := {| bound := d; options := opts |} in
        (inr (rp_settle (server (wire w) r)),
         {| this := this w; wire := wire w ++ [r] |})
    | None => (inl TypeError, w)
    end.

Definition constructor (params : option (gmap string value)) : M unit :=
  let params := default_params params in
  let username := prop params "username" in
  let password := prop params "password" in
  write_this
    {| _baseUrl := prop params "baseUrl";
       _request := Some {| auth := (username, password); json := true |} |}.

Definition get (params : option (gmap string value)) : M (Promise Body) :=
  let params := default_params params in
  let applicationName := prop params "applicationName" in
  app ← lift (encodeURIComponent applicationName);
  request ← read_this _request;
  baseUrl ← read_this _baseUrl;
  rp_call request
    {| method := GET;
       uri := ToString baseUrl ++ lit "/applications/" ++ app;
       qs := None |}.

Definition subscribe (params : option (gmap string value))
  : M (Promise Body) :=
  let params := default_params params in
  let eventSource := prop params "eventSource" in
  let applicationName := prop params "applicationName" in
  app ← lift (encodeURIComponent applicationName);
  request ← read_this _request;
  baseUrl ← read_this _baseUrl;
  rp_call request
    {| method := POST;
       uri := ToString baseUrl ++ lit "/applications/" ++ app
                ++ lit "/subscription";
       qs := Some [("eventSource"%string,
                    Array_join (Array_concat [] eventSource) (lit ","))] |}.

Definition unsubscribe (params : option (gmap string value))
  : M (Promise Body) :=
  let params := default_params params in
  let eventSource := prop params "eventSource" in
  let applicationName := prop params "applicationName" in
  app ← lift (encodeURIComponent applicationName);
  request ← read_this _request;
  baseUrl ← read_this _baseUrl;
  rp_call request
    {| method := DELETE;
       uri := ToString baseUrl ++ lit "/applications/" ++ app
                ++ lit "/subscription";
       qs := Some [("eventSource"%string,
                    Array_join (Array_concat [] eventSource) (lit ","))] |}.

Definition list : M (Promise Body) :=
  request ← read_this _request;
  baseUrl ← read_this _baseUrl;
  rp_call request
    {| method := GET;
       uri := ToString baseUrl ++ lit "/applications";
       qs := None |}.

End Methods.

End ApplicationsAPI.

(** [new ApplicationsAPI(config)], in a world where [sent] has already gone
    over the wire. *)
Definition new (config : option (gmap string value)) (sent : list Request)
  : World :=
  (ApplicationsAPI.constructor config {| this := blank; wire := sent |}).2.

(** The base url and the bound options a configuration leads to. *)
Definition baseUrl_of (config : option (gmap string value)) : jsstring :=
  ToString (prop (default_params config) "baseUrl").

Definition bound_of (config : option (gmap string value)) : Defaults :=
  {| auth := (prop (default_params config) "username",
              prop (default_params config) "password");
     json := true |}.

(** The request a client built from [config] dispatches for the options of
    one call. *)
Definition request_for (config : option (gmap string value)) (opts : Options)
  : Request :=
  {| bound := bound_of config; options := opts |}.

(** ** Calls on a client *)

Inductive Call : Type :=
  | CallList
  | CallGet (params : option (gmap string value))
  | CallSubscribe (params : option (gmap string value))
  | CallUnsubscribe (params : option (gmap string value)).

Definition invoke {Body : Type} (server : list Request → Request → Reply Body)
  (k : Call) : M (Promise Body) :=
  match k with
  | CallList => ApplicationsAPI.list server
  | CallGet params => ApplicationsAPI.get server params
  | CallSubscribe params => ApplicationsAPI.subscribe server params
  | CallUnsubscribe params => ApplicationsAPI.unsubscribe server params
  end.

(** A caller making one call after the other, whatever each returns or
    throws. *)
Fixpoint invoke_all {Body : Type}
  (server : list Request → Request → Reply Body) (ks : list Call) (w : World)
  : World :=
  match ks with
  | [] => w
  | k :: rest => invoke_all server rest (invoke server k w).2
  end.

(** ** Vocabulary of the specification *)

(** An event source as the documentation types it: one string, or an
    ordered sequence of strings. *)
Inductive EventSource : Type :=
  | One (s : jsstring)
  | Many (xs : list jsstring).

Definition EventSource_value (es : EventSource) : value :=
  match es with
  | One s => JString s
  | Many xs => JArray (JString <$> xs)
  end.

Definition EventSource_elements (es : EventSource) : list jsstring :=
  match es with
  | One s => [s]
  | Many xs => xs
  end.

(** The elements of a sequence of strings joined with commas. *)
Fixpoint comma_joined (xs : list jsstring) : jsstring :=
  match xs with
  | [] => []
  | x :: rest =>
      match rest with
      | [] => x
      | _ :: _ => x ++ lit "," ++ comma_joined rest
      end
  end.

(** The code points of a string; [None] when a surrogate is unpaired. *)
Fixpoint code_points (s : jsstring) : option (list N) :=
  match s with
  | [] => Some []
  | c :: rest =>
      if isTrailingSurrogate c then None
      else if isLeadingSurrogate c then
        match rest with
        | [] => None
        | c2 :: rest2 =>
            if isTrailingSurrogate c2 then
              cons (UTF16SurrogatePairToCodePoint c c2) <$> code_points rest2
            else None
        end
      else cons c <$> code_points rest
  end.

(** A string is well formed when no surrogate in it is unpaired. *)
Definition isWellFormed (s : jsstring) : bool :=
  bool_decide (is_Some (code_points s)).

(** Percent-encoding of a path component, code point by code point: a
    letter, a digit or one of the marks [- _ . ! ~ * ' ( )] stands for
    itself, any other code point is written as the [%XX] escapes of its
    UTF-8 octets. *)
Definition percent_encoded (cps : list N) : jsstring :=
  concat (map (λ cp, if uriUnescaped cp then [cp] else pct_code_point cp) cps).

(** The characters that can occur in a percent-encoded component: those
    [encodeURIComponent] leaves alone, and [%]. *)
Definition component_char (c : code_unit) : bool :=
  uriUnescaped c || (c =? 37).

(** The space and the delimiters of RFC 3986 other than [! ' ( ) *]:
    characters that end a path segment or have a reserved purpose in it. *)
Definition path_delimiters : jsstring := lit " /?#[]@:$&+,;=".

(** The space and the reserved characters of RFC 3986: its general
    delimiters [: / ? # [ ] @] and its sub-delimiters
    [! $ & ' ( ) * + , ; =]. *)
Definition reserved_in_path : jsstring := lit " :/?#[]@!$&'()*+,;=".

(** The application name a call reads from its argument; [list] reads
    none. *)
Definition Call_applicationName (k : Call) : option value :=
  match k with
  | CallList => None
  | CallGet params | CallSubscribe params | CallUnsubscribe params =>
      Some (prop (default_params params) "applicationName")
  end.

(** ** Sample data

    The base url of the constructor's documentation, an application as the
    server returns it, and servers that give one fixed reply. *)

Definition ari_config : option (gmap string value) :=
  Some {[ "username"%string := JString (lit "asterisk");
          "password"%string := JString (lit "secret");
          "baseUrl"%string := JString (lit "http://myserver.local:8088/ari") ]}.

Definition app1 : gmap string value :=
  {[ "name"%string := JString (lit "app1");
     "bridge_ids"%string := JArray [];
     "channel_ids"%string := JArray [];
     "device_names"%string := JArray [];
     "endpoint_ids"%string := JArray [] ]}.

Definition always {Body : Type} (reply : Reply Body)
  : list Request → Request → Reply Body :=
  λ _ _, reply.

Definition not_found : Reply (gmap string value) :=
  HttpResponse 404
    {[ "message"%string := JString (lit "Application not found") ]}.

(** * Properties *)

(** ** What one call does in the world of a constructed client *)

Section Runs.

Context {Body : Type}.
Variable server : list Request → Request → Reply Body.
Variable config : option (gmap string value).
Variable sent : list Request.

Lemma new_this :
  this (new config sent)
  = {| _baseUrl := prop (default_params config) "baseUrl";
       _request := Some (bound_of config) |}.
Proof. reflexivity. Qed.

Lemma new_wire : wire (new config sent) = sent.
Proof. reflexivity. Qed.

Lemma list_run :
  ApplicationsAPI.list server (new config sent)
  = let r := request_for config
               {| method := GET;
                  uri := baseUrl_of config ++ lit "/applications";
                  qs := None |} in
    (inr (rp_settle (server sent r)), new config (sent ++ [r])).
Proof. reflexivity. Qed.

Lemma get_run params :
  ApplicationsAPI.get server params (new config sent)
  = match encodeURIComponent
            (prop (default_params params) "applicationName") with
    | inl e => (inl e, new config sent)
    | inr app =>
        let r := request_for config
                   {| method := GET;
                      uri := baseUrl_of config ++ lit "/applications/"
                               ++ app;
                      qs := None |} in
        (inr (rp_settle (server sent r)), new config (sent ++ [r]))
    end.
Proof.
  unfold ApplicationsAPI.get, mbind, M_bind, lift.
  destruct (encodeURIComponent _); reflexivity.
Qed.

Lemma subscribe_run params :
  ApplicationsAPI.subscribe server params (new config sent)
  = match encodeURIComponent
            (prop (default_params params) "applicationName") with
    | inl e => (inl e, new config sent)
    | inr app =>
        let r := request_for config
                   {| method := POST;
                      uri := baseUrl_of config ++ lit "/applications/"
                               ++ app ++ lit "/subscription";
                      qs := Some
                        [("eventSource"%string,
                          Array_join
                            (Array_concat []
                               (prop (default_params params) "eventSource"))
                            (lit ","))] |} in
        (inr (rp_settle (server sent r)), new config (sent ++ [r]))
    end.
Proof.
  unfold ApplicationsAPI.subscribe, mbind, M_bind, lift.
  destruct (encodeURIComponent _); reflexivity.
Qed.

Lemma unsubscribe_run params :
  ApplicationsAPI.unsubscribe server params (new config sent)
  = match encodeURIComponent
            (prop (default_params params) "applicationName") with
    | inl e => (inl e, new config sent)
    | inr app =>
        let r := request_for config
                   {| method := DELETE;
                      uri := baseUrl_of config ++ lit "/applications/"
                               ++ app ++ lit "/subscription";
                      qs := Some
                        [("eventSource"%string,
                          Array_join
                            (Array_concat []
                               (prop (default_params params) "eventSource"))
                            (lit ","))] |} in
        (inr (rp_settle (server sent r)), new config (sent ++ [r]))
    end.
Proof.
  unfold ApplicationsAPI.unsubscribe, mbind, M_bind, lift.
  destruct (encodeURIComponent _); reflexivity.
Qed.

(** A computation that ends in the client's world with one more request
    on the wire dispatched exactly that request. *)
Lemma dispatched_one {A : Type} (m : M A) (a : exn + A) (r : Request) :
  m (new config sent) = (a, new config (sent ++ [r])) →
  dispatched m (new config sent) = [r].
Proof.
  intros E. unfold dispatched. rewrite E. cbn [snd].
  rewrite !new_wire. apply drop_app_length.
Qed.

Lemma dispatched_none {A : Type} (m : M A) (a : exn + A) :
  m (new config sent) = (a, new config sent) →
  dispatched m (new config sent) = [].
Proof.
  intros E. unfold dispatched. rewrite E. cbn [snd].
  rewrite !new_wire. apply drop_all.
Qed.

(** Every call either throws before anything is dispatched, or dispatches
    one request and returns the promise of that request. *)
Lemma invoke_cases (k : Call) :
  (∃ e, invoke server k (new config sent) = (inl e, new config sent))
  ∨ (∃ opts,
      invoke server k (new config sent)
      = (inr (rp_settle (server sent (request_for config opts))),
         new config (sent ++ [request_for config opts]))).
Proof.
  destruct k as [|params|params|params]; cbn [invoke].
  - right. eexists. apply list_run.
  - rewrite get_run. destruct (encodeURIComponent _); eauto.
  - rewrite subscribe_run. destruct (encodeURIComponent _); eauto.
  - rewrite unsubscribe_run. destruct (encodeURIComponent _); eauto.
Qed.

End Runs.

(** ** Calls and the object [this] *)

Section Frame.

Context {Body : Type}.

Lemma rp_call_this (server : list Request → Request → Reply Body)
  (f : option Defaults) (opts : Options) (w : World) :
  this (ApplicationsAPI.rp_call server f opts w).2 = this w.
Proof. unfold ApplicationsAPI.rp_call. by destruct f. Qed.

(** No call assigns a property of [this], in any world. *)
Lemma invoke_this (server : list Request → Request → Reply Body)
  (k : Call) (w : World) :
  this (invoke server k w).2 = this w.
Proof.
  destruct k as [|params|params|params]; cbn [invoke];
    unfold ApplicationsAPI.list, ApplicationsAPI.get,
      ApplicationsAPI.subscribe, ApplicationsAPI.unsubscribe,
      mbind, M_bind, lift, read_this;
    try destruct (encodeURIComponent _); cbn [snd];
    try apply rp_call_this; reflexivity.
Qed.

Lemma invoke_all_this (server : list Request → Request → Reply Body)
  (ks : list Call) (w : World) :
  this (invoke_all server ks w) = this w.
Proof.
  revert w. induction ks as [|k ks IH]; intros w; cbn [invoke_all].
  - reflexivity.
  - rewrite IH. apply invoke_this.
Qed.

(** The requests a call dispatches are a function of the call and of
    [this] alone: neither the history of the wire nor the replies of the
    server enter. *)
Lemma dispatched_this_only
  (server server' : list Request → Request → Reply Body)
  (k : Call) (w w' : World) :
  this w = this w' →
  dispatched (invoke server k) w = dispatched (invoke server' k) w'.
Proof.
  destruct w as [[b f] ws], w' as [[b' f'] ws'].
  cbn [this]. intros [= -> ->].
  destruct k as [|params|params|params]; cbn [invoke];
    unfold ApplicationsAPI.list, ApplicationsAPI.get,
      ApplicationsAPI.subscribe, ApplicationsAPI.unsubscribe;
    try destruct (encodeURIComponent _) as [e|app];
    unfold dispatched, mbind, M_bind, lift, read_this,
      ApplicationsAPI.rp_call;
    destruct f'; cbn [snd wire this _request _baseUrl];
    by rewrite ?drop_app_length, ?drop_all.
Qed.

End Frame.

(** ** String conversion and joining *)

Lemma Array_join_strings (xs : list jsstring) :
  Array_join (JString <$> xs) (lit ",") = comma_joined xs.
Proof.
  unfold Array_join.
  induction xs as [|x [|y rest] IH]; [reflexivity | reflexivity |].
  change (x ++ lit "," ++ join_with ToString (lit ",") (JString <$> y :: rest)
          = x ++ lit "," ++ comma_joined (y :: rest)).
  by rewrite IH.
Qed.

Lemma normalized_EventSource (es : EventSource) :
  Array_concat [] (EventSource_value es)
  = JString <$> EventSource_elements es.
Proof. destruct es; reflexivity. Qed.

Lemma joined_EventSource (es : EventSource) :
  Array_join (Array_concat [] (EventSource_value es)) (lit ",")
  = comma_joined (EventSource_elements es).
Proof. rewrite normalized_EventSource. apply Array_join_strings. Qed.

Lemma prop_lookup (o : gmap string value) (k : string) (v : value) :
  o !! k = Some v → prop o k = v.
Proof. unfold prop. by intros ->. Qed.

Lemma prop_missing (o : gmap string value) (k : string) :
  o !! k = None → prop o k = JUndefined.
Proof. unfold prop. by intros ->. Qed.

Lemma encodeURIComponent_undefined :
  encodeURIComponent JUndefined = inr (lit "undefined").
Proof. reflexivity. Qed.

Lemma prop_insert_eq (o : gmap string value) (k : string) (v : value) :
  prop (<[k:=v]> o) k = v.
Proof. unfold prop. by rewrite lookup_insert_eq. Qed.

Lemma prop_insert_ne (o : gmap string value) (k k' : string) (v : value) :
  k ≠ k' → prop (<[k:=v]> o) k' = prop o k'.
Proof. intros Hne. unfold prop. by rewrite lookup_insert_ne. Qed.

Lemma joined_one_string (s : jsstring) :
  Array_join (Array_concat [] (JString s)) (lit ",") = s.
Proof. reflexivity. Qed.

Lemma joined_string_array (xs : list jsstring) :
  Array_join (Array_concat [] (JArray (JString <$> xs))) (lit ",")
  = comma_joined xs.
Proof. apply Array_join_strings. Qed.

(** ** Percent-encoding *)

(** Induction on a string that also reaches past a pair of code units. *)
Lemma jsstring_pair_ind (P : jsstring → Prop) :
  P [] →
  (∀ c rest,
     P rest → (∀ c2 rest2, rest = c2 :: rest2 → P rest2) → P (c :: rest)) →
  ∀ s, P s.
Proof.
  intros Hnil Hcons s.
  enough (P s ∧ ∀ c2 rest2, s = c2 :: rest2 → P rest2) as [? _] by done.
  induction s as [|c rest [IH1 IH2]].
  - split; [done|]. intros ? ? [=].
  - split; [by apply Hcons|]. by intros ? ? [= _ <-].
Qed.

Lemma uriUnescaped_ascii (c : code_unit) : uriUnescaped c = true → c < 128.
Proof.
  unfold uriUnescaped. cbn [lit list_ascii_of_string map existsb].
  rewrite !orb_true_iff, !andb_true_iff, !N.leb_le, !N.eqb_eq.
  cbn. lia.
Qed.

Lemma uriUnescaped_not_surrogate (c : code_unit) :
  uriUnescaped c = true →
  isTrailingSurrogate c = false ∧ isLeadingSurrogate c = false.
Proof.
  intros Hc%uriUnescaped_ascii.
  unfold isTrailingSurrogate, isLeadingSurrogate.
  rewrite !andb_false_iff, !N.leb_gt. lia.
Qed.

Lemma surrogate_pair_range (lead trail : code_unit) :
  isLeadingSurrogate lead = true →
  isTrailingSurrogate trail = true →
  0x10000 ≤ UTF16SurrogatePairToCodePoint lead trail < 0x110000.
Proof.
  unfold isLeadingSurrogate, isTrailingSurrogate,
    UTF16SurrogatePairToCodePoint.
  rewrite !andb_true_iff, !N.leb_le. lia.
Qed.

Lemma surrogate_pair_escaped (lead trail : code_unit) :
  uriUnescaped (UTF16SurrogatePairToCodePoint lead trail) = false.
Proof.
  destruct (uriUnescaped _) eqn:E; [|reflexivity].
  apply uriUnescaped_ascii in E.
  unfold UTF16SurrogatePairToCodePoint in E. lia.
Qed.

Lemma percent_encoded_cons (cp : N) (cps : list N) :
  percent_encoded (cp :: cps)
  = (if uriUnescaped cp then [cp] else pct_code_point cp)
      ++ percent_encoded cps.
Proof. reflexivity. Qed.

(** [Encode] walks the code units once; what it produces is the
    percent-encoding of the code points of the string, and it throws exactly
    when the string has an unpaired surrogate. *)
Lemma Encode_code_points (s : jsstring) :
  Encode s = percent_encoded <$> code_points s.
Proof.
  remember (length s) as n eqn:Hn.
  revert s Hn. induction (lt_wf n) as [n _ IH]. intros s ->.
  destruct s as [|c rest]; [reflexivity|].
  cbn [Encode code_points].
  destruct (uriUnescaped c) eqn:Hu.
  - destruct (uriUnescaped_not_surrogate c Hu) as [-> ->].
    rewrite (IH (length rest)) by (cbn; lia || reflexivity).
    destruct (code_points rest); cbn [fmap option_fmap option_map];
      [|reflexivity].
    by rewrite percent_encoded_cons, Hu.
  - destruct (isTrailingSurrogate c); [reflexivity|].
    destruct (isLeadingSurrogate c).
    + destruct rest as [|c2 rest2]; [reflexivity|].
      destruct (isTrailingSurrogate c2); [|reflexivity].
      rewrite (IH (length rest2)) by (cbn; lia || reflexivity).
      destruct (code_points rest2); cbn [fmap option_fmap option_map];
        [|reflexivity].
      by rewrite percent_encoded_cons, surrogate_pair_escaped.
    + rewrite (IH (length rest)) by (cbn; lia || reflexivity).
      destruct (code_points rest); cbn [fmap option_fmap option_map];
        [|reflexivity].
      by rewrite percent_encoded_cons, Hu.
Qed.

(** A character that needs no escape is copied: where it stands in the
    string, it stands in the encoding. *)
Lemma Encode_keeps_unescaped (s e : jsstring) (c : code_unit) :
  Encode s = Some e → uriUnescaped c = true → c ∈ s → c ∈ e.
Proof.
  intros He Hc. revert e He.
  induction s as [|d rest IH IH2] using jsstring_pair_ind;
    intros e; cbn [Encode]; [by intros _ ?%elem_of_nil|].
  destruct (uriUnescaped d) eqn:Hd.
  - destruct (Encode rest) as [e1|]; [|done]. intros [= <-].
    intros [->|Hin]%elem_of_cons; [apply list_elem_of_here|].
    apply list_elem_of_further. by apply (IH e1).
  - assert (c ≠ d) as Hne by congruence.
    destruct (isTrailingSurrogate d); [done|].
    destruct (isLeadingSurrogate d).
    + destruct rest as [|t rest2]; [done|].
      destruct (isTrailingSurrogate t) eqn:Ht; [|done].
      destruct (Encode rest2) as [e2|] eqn:He2; [|done]. intros [= <-].
      intros [->|Hin]%elem_of_cons; [done|].
      apply elem_of_cons in Hin as [->|Hin].
      { destruct (uriUnescaped_not_surrogate t Hc) as [Hnot _]. congruence. }
      apply elem_of_app. right. by apply (IH2 t rest2 eq_refl e2).
    + destruct (Encode rest) as [e1|]; [|done]. intros [= <-].
      intros [->|Hin]%elem_of_cons; [done|].
      apply elem_of_app. right. by apply (IH e1).
Qed.

Lemma encodeURIComponent_string (s : jsstring) :
  encodeURIComponent (JString s)
  = match code_points s with
    | Some cps => inr (percent_encoded cps)
    | None => inl URIError
    end.
Proof.
  unfold encodeURIComponent. cbn [ToString].
  rewrite Encode_code_points. by destruct (code_points s).
Qed.

(** Only unreserved characters, [%] and hexadecimal digits come out. *)

Lemma uriUnescaped_range (c : code_unit) :
  48 ≤ c ≤ 57 ∨ 65 ≤ c ≤ 90 → uriUnescaped c = true.
Proof.
  intros Hc. unfold uriUnescaped.
  rewrite !orb_true_iff, !andb_true_iff, !N.leb_le. lia.
Qed.

Lemma hex_digit_unescaped (d : N) :
  d < 16 → uriUnescaped (hex_digit d) = true.
Proof.
  intros Hd. apply uriUnescaped_range. unfold hex_digit.
  destruct (N.ltb_spec d 10); lia.
Qed.

Lemma pct_octet_chars (b : N) :
  b < 256 → Forall (λ c, component_char c = true) (pct_octet b).
Proof.
  intros Hb. unfold pct_octet, component_char.
  repeat constructor.
  - rewrite hex_digit_unescaped; [reflexivity|].
    rewrite N.shiftr_div_pow2. apply N.Div0.div_lt_upper_bound.
    change (2 ^ 4 * 16) with 256. lia.
  - rewrite hex_digit_unescaped; [reflexivity|].
    pose proof (N.land_le_r b 15). lia.
Qed.

Lemma log2_octet (a : N) : a < 256 → N.log2 a < 8.
Proof.
  intros Ha. destruct (N.eq_dec a 0) as [->|Hne]; [reflexivity|].
  apply N.log2_lt_pow2; [lia|done].
Qed.

Lemma lor_octet (a b : N) : a < 256 → b < 256 → N.lor a b < 256.
Proof.
  intros Ha%log2_octet Hb%log2_octet.
  destruct (N.eq_dec (N.lor a b) 0) as [->|Hne]; [done|].
  change 256 with (2 ^ 8). apply N.log2_lt_pow2; [lia|].
  rewrite N.log2_lor. lia.
Qed.

Lemma continuation_octet (x : N) : N.lor 0x80 (N.land x 0x3F) < 256.
Proof.
  apply lor_octet; [done|]. pose proof (N.land_le_r x 0x3F). lia.
Qed.

Lemma lead_octet (m cp k : N) :
  m < 256 → cp < 2 ^ k * 256 → N.lor m (N.shiftr cp k) < 256.
Proof.
  intros Hm Hcp. apply lor_octet; [done|].
  rewrite N.shiftr_div_pow2. by apply N.Div0.div_lt_upper_bound.
Qed.

Lemma utf8_octets_bound (cp : N) :
  cp < 0x110000 → Forall (λ b, b < 256) (utf8_octets cp).
Proof.
  intros Hcp. unfold utf8_octets.
  destruct (N.ltb_spec cp 0x80); [repeat constructor; lia|].
  destruct (N.ltb_spec cp 0x800);
    [|destruct (N.ltb_spec cp 0x10000)];
    repeat constructor; try apply continuation_octet;
    (apply lead_octet; [done|]).
  - change (2 ^ 6 * 256) with 16384. lia.
  - change (2 ^ 12 * 256) with 1048576. lia.
  - change (2 ^ 18 * 256) with 67108864. lia.
Qed.

Lemma pct_code_point_chars (cp : N) :
  cp < 0x110000 →
  Forall (λ c, component_char c = true) (pct_code_point cp).
Proof.
  intros Hcp%utf8_octets_bound. unfold pct_code_point.
  induction Hcp as [|b bs Hb _ IH]; [constructor|].
  cbn [map concat]. apply Forall_app. split; [by apply pct_octet_chars|done].
Qed.

Lemma percent_encoded_chars (cps : list N) :
  Forall (λ cp, cp < 0x110000) cps →
  Forall (λ c, component_char c = true) (percent_encoded cps).
Proof.
  induction 1 as [|cp cps Hcp _ IH]; [constructor|].
  rewrite percent_encoded_cons. apply Forall_app. split; [|done].
  destruct (uriUnescaped cp) eqn:Hu.
  - repeat constructor. unfold component_char. by rewrite Hu.
  - by apply pct_code_point_chars.
Qed.

Lemma code_points_bound (s : jsstring) (cps : list N) :
  is_jsstring s →
  code_points s = Some cps →
  Forall (λ cp, cp < 0x110000) cps.
Proof.
  remember (length s) as n eqn:Hn.
  revert s cps Hn. induction (lt_wf n) as [n _ IH]. intros s cps -> Hs.
  destruct s as [|c rest]; cbn [code_points].
  { intros [= <-]. constructor. }
  apply Forall_cons in Hs as [Hc Hrest].
  destruct (isTrailingSurrogate c); [done|].
  destruct (isLeadingSurrogate c) eqn:Hlead.
  - destruct rest as [|c2 rest2]; [done|].
    destruct (isTrailingSurrogate c2) eqn:Htrail; [|done].
    apply Forall_cons in Hrest as [_ Hrest2].
    destruct (code_points rest2) as [cps2|] eqn:E; [|done].
    intros [= <-]. constructor.
    + by apply surrogate_pair_range.
    + eapply (IH (length rest2)); [cbn; lia|reflexivity|done|done].
  - destruct (code_points rest) as [cps1|] eqn:E; [|done].
    intros [= <-]. constructor.
    + unfold code_unit in *. lia.
    + eapply (IH (length rest)); [cbn; lia|reflexivity|done|done].
Qed.

Lemma path_delimiters_escaped (c : code_unit) :
  c ∈ path_delimiters → component_char c = false.
Proof.
  unfold path_delimiters.
  cbn [lit list_ascii_of_string map]. intros Hc.
  repeat (apply elem_of_cons in Hc as [->|Hc]; [reflexivity|]).
  by apply elem_of_nil in Hc.
Qed.

Lemma component_chars_no_delimiter (segment : jsstring) (c : code_unit) :
  Forall (λ c, component_char c = true) segment →
  c ∈ path_delimiters → c ∉ segment.
Proof.
  intros Hsegment Hc%path_delimiters_escaped Hin.
  rewrite Forall_forall in Hsegment. apply Hsegment in Hin. congruence.
Qed.

Lemma isWellFormed_code_points (s : jsstring) :
  isWellFormed s = true → ∃ cps, code_points s = Some cps.
Proof.
  unfold isWellFormed. intros H. apply bool_decide_eq_true_1 in H.
  destruct H as [cps Hcps]. by exists cps.
Qed.

(** ** The claims *)

Section Claims.

Context {Body : Type}.
Variable server : list Request → Request → Reply Body.
Variable config : option (gmap string value).
Variable sent : list Request.

(** C1: whether the event source is one string or a sequence of strings,
    [subscribe] and [unsubscribe] normalize it to the sequence of its
    elements and dispatch one request whose query has the single parameter
    [eventSource], valued with the elements joined with commas. *)
Theorem C1_eventSource_comma_joined
  (params : gmap string value) (es : EventSource) (app : jsstring) :
  params !! "eventSource"%string = Some (EventSource_value es) →
  encodeURIComponent (prop params "applicationName") = inr app →
  Array_concat [] (EventSource_value es)
    = JString <$> EventSource_elements es
  ∧ (qs ∘ options)
      <$> dispatched (ApplicationsAPI.subscribe server (Some params))
            (new config sent)
    = [Some [("eventSource"%string,
              comma_joined (EventSource_elements es))]]
  ∧ (qs ∘ options)
      <$> dispatched (ApplicationsAPI.unsubscribe server (Some params))
            (new config sent)
    = [Some [("eventSource"%string,
              comma_joined (EventSource_elements es))]].
Proof.
  intros Hes Happ. split; [apply normalized_EventSource|].
  pose proof (subscribe_run server config sent (Some params)) as Hs.
  pose proof (unsubscribe_run server config sent (Some params)) as Hu.
  change (default_params (Some params)) with params in Hs, Hu.
  rewrite Happ, (prop_lookup _ _ _ Hes), joined_EventSource in Hs, Hu.
  cbv zeta in Hs, Hu.
  by rewrite (dispatched_one _ _ _ _ _ Hs), (dispatched_one _ _ _ _ _ Hu).
Qed.

(** C2: the method, path and query of each of the four operations are
    those of the interface table. *)
Theorem C2_method_and_path
  (params : option (gmap string value)) (app : jsstring) :
  encodeURIComponent (prop (default_params params) "applicationName")
    = inr app →
  options <$> dispatched (ApplicationsAPI.list server) (new config sent)
    = [{| method := GET;
          uri := baseUrl_of config ++ lit "/applications";
          qs := None |}]
  ∧ options
      <$> dispatched (ApplicationsAPI.get server params) (new config sent)
    = [{| method := GET;
          uri := baseUrl_of config ++ lit "/applications/" ++ app;
          qs := None |}]
  ∧ options
      <$> dispatched (ApplicationsAPI.subscribe server params)
            (new config sent)
    = [{| method := POST;
          uri := baseUrl_of config ++ lit "/applications/" ++ app
                   ++ lit "/subscription";
          qs := Some
            [("eventSource"%string,
              Array_join
                (Array_concat []
                   (prop (default_params params) "eventSource"))
                (lit ","))] |}]
  ∧ options
      <$> dispatched (ApplicationsAPI.unsubscribe server params)
            (new config sent)
    = [{| method := DELETE;
          uri := baseUrl_of config ++ lit "/applications/" ++ app
                   ++ lit "/subscription";
          qs := Some
            [("eventSource"%string,
              Array_join
                (Array_concat []
                   (prop (default_params params) "eventSource"))
                (lit ","))] |}].
Proof.
  intros Happ.
  pose proof (list_run server config sent) as Hl.
  pose proof (get_run server config sent params) as Hg.
  pose proof (subscribe_run server config sent params) as Hs.
  pose proof (unsubscribe_run server config sent params) as Hu.
  rewrite Happ in Hg, Hs, Hu. cbv zeta in Hl, Hg, Hs, Hu.
  rewrite (dispatched_one _ _ _ _ _ Hl), (dispatched_one _ _ _ _ _ Hg),
    (dispatched_one _ _ _ _ _ Hs), (dispatched_one _ _ _ _ _ Hu).
  repeat split.
Qed.

(** C3: for an application name that is a well-formed string, [get]
    dispatches exactly one request; its method is GET and its uri is the
    base url followed by [/applications/] and the percent-encoding of the
    name. *)
Theorem C3_get_one_GET_to_encoded_name
  (params : gmap string value) (name : jsstring) :
  params !! "applicationName"%string = Some (JString name) →
  isWellFormed name = true →
  ∃ cps,
    code_points name = Some cps
    ∧ dispatched (ApplicationsAPI.get server (Some params))
        (new config sent)
      = [request_for config
           {| method := GET;
              uri := baseUrl_of config ++ lit "/applications/"
                       ++ percent_encoded cps;
              qs := None |}].
Proof.
  intros Hname [cps Hcps]%isWellFormed_code_points.
  exists cps. split; [done|].
  pose proof (get_run server config sent (Some params)) as Hg.
  change (default_params (Some params)) with params in Hg.
  rewrite (prop_lookup _ _ _ Hname), encodeURIComponent_string, Hcps in Hg.
  cbv zeta in Hg. by rewrite (dispatched_one _ _ _ _ _ Hg).
Qed.

(** C4, as amended: for a name that is a string, the name segment of the uri
    that [get], [subscribe] and [unsubscribe] put in their request is the
    percent-encoding of the name.  Every code point other than a letter, a
    digit or one of [- _ . ! ~ * ' ( )] is written as the [%XX] escapes of
    its UTF-8 octets, so the segment holds nothing but those characters,
    [%] and hexadecimal digits, and neither a space nor any of
    [/ ? # [ ] @ : $ & + , ; =] occurs in it; the letters, the digits and
    the marks, the reserved [! ' ( ) *] among them, stand in the segment as
    they stand in the name.  A name with an unpaired surrogate has no
    encoding: the operation then throws a URIError and dispatches
    nothing. *)
Theorem C4_name_percent_encoded_in_path
  (params : gmap string value) (name : jsstring) :
  is_jsstring name →
  params !! "applicationName"%string = Some (JString name) →
  match code_points name with
  | Some cps =>
      Forall (λ c, component_char c = true) (percent_encoded cps)
      ∧ (∀ c, c ∈ path_delimiters → c ∉ percent_encoded cps)
      ∧ (∀ c, uriUnescaped c = true → c ∈ name → c ∈ percent_encoded cps)
      ∧ (uri ∘ options)
          <$> dispatched (ApplicationsAPI.get server (Some params))
                (new config sent)
        = [baseUrl_of config ++ lit "/applications/"
             ++ percent_encoded cps]
      ∧ (uri ∘ options)
          <$> dispatched (ApplicationsAPI.subscribe server (Some params))
                (new config sent)
        = [baseUrl_of config ++ lit "/applications/"
             ++ percent_encoded cps ++ lit "/subscription"]
      ∧ (uri ∘ options)
          <$> dispatched (ApplicationsAPI.unsubscribe server (Some params))
                (new config sent)
        = [baseUrl_of config ++ lit "/applications/"
             ++ percent_encoded cps ++ lit "/subscription"]
  | None =>
      ApplicationsAPI.get server (Some params) (new config sent)
        = (inl URIError, new config sent)
      ∧ ApplicationsAPI.subscribe server (Some params) (new config sent)
        = (inl URIError, new config sent)
      ∧ ApplicationsAPI.unsubscribe server (Some params) (new config sent)
        = (inl URIError, new config sent)
  end.
Proof.
  intros Hunits Hname.
  pose proof (get_run server config sent (Some params)) as Hg.
  pose proof (subscribe_run server config sent (Some params)) as Hs.
  pose proof (unsubscribe_run server config sent (Some params)) as Hu.
  change (default_params (Some params)) with params in Hg, Hs, Hu.
  rewrite (prop_lookup _ _ _ Hname), encodeURIComponent_string
    in Hg, Hs, Hu.
  destruct (code_points name) as [cps|] eqn:Hcps; [|done].
  cbv zeta in Hg, Hs, Hu.
  rewrite (dispatched_one _ _ _ _ _ Hg), (dispatched_one _ _ _ _ _ Hs),
    (dispatched_one _ _ _ _ _ Hu).
  assert (Forall (λ c, component_char c = true) (percent_encoded cps))
    as Hchars by (eapply percent_encoded_chars, code_points_bound; done).
  split; [done|]. split; [|split; [|done]].
  - intros c. by apply component_chars_no_delimiter.
  - intros c Hc. apply (Encode_keeps_unescaped name); [|done].
    by rewrite Encode_code_points, Hcps.
Qed.


(** C6: whatever the operation, when the server answers the request it
    dispatched with a status outside 2xx, the promise the operation
    returned is rejected with the error of the request library, a
    [StatusCodeError] holding that status code and that body; the request
    went out once. *)
Theorem C6_non_2xx_rejects_with_status_and_body
  (k : Call) (r : Request) (statusCode : Z) (body : Body) :
  r ∈ dispatched (invoke server k) (new config sent) →
  server sent r = HttpResponse statusCode body →
  is2xx statusCode = false →
  outcome (invoke server k) (new config sent)
    = inr (Rejected (StatusCodeError statusCode body))
  ∧ dispatched (invoke server k) (new config sent) = [r].
Proof.
  intros Hr Hreply Hstatus. unfold outcome.
  destruct (invoke_cases server config sent k) as [[e He] | [opts Ho]].
  - rewrite (dispatched_none _ _ _ _ He) in Hr. by apply elem_of_nil in Hr.
  - rewrite (dispatched_one _ _ _ _ _ Ho) in Hr |- *.
    apply list_elem_of_singleton in Hr as ->.
    rewrite Ho. cbn [fst]. rewrite Hreply. cbn [rp_settle].
    by rewrite Hstatus.
Qed.

(** C7: the constructor fixes the base url and the bound credentials, and
    no sequence of calls changes them: after any calls [this] is what the
    constructor made it, and a call dispatches the same requests whatever
    calls, how many and in which order, were made before it. *)
Theorem C7_configuration_never_mutated (prior prior' : list Call) (k : Call) :
  this (new config sent)
    = {| _baseUrl := prop (default_params config) "baseUrl";
         _request :=
           Some {| auth := (prop (default_params config) "username",
                            prop (default_params config) "password");
                   json := true |} |}
  ∧ this (invoke_all server prior (new config sent))
    = this (new config sent)
  ∧ dispatched (invoke server k)
      (invoke_all server prior (new config sent))
    = dispatched (invoke server k)
        (invoke_all server prior' (new config sent)).
Proof.
  split; [reflexivity|]. split.
  - apply invoke_all_this.
  - apply dispatched_this_only. by rewrite !invoke_all_this.
Qed.

(** C8: with [params] omitted, or given without [applicationName], [get],
    [subscribe] and [unsubscribe] do not throw: each dispatches one request
    whose name segment is the string [undefined] and returns the promise
    of that request. *)
Theorem C8_absent_applicationName (params : option (gmap string value)) :
  params = None
  ∨ (∃ p, params = Some p ∧ p !! "applicationName"%string = None) →
  (let r := request_for config
              {| method := GET;
                 uri := baseUrl_of config ++ lit "/applications/undefined";
                 qs := None |} in
   ApplicationsAPI.get server params (new config sent)
   = (inr (rp_settle (server sent r)), new config (sent ++ [r])))
  ∧ (let r := request_for config
                {| method := POST;
                   uri := baseUrl_of config
                            ++ lit "/applications/undefined/subscription";
                   qs := Some
                     [("eventSource"%string,
                       Array_join
                         (Array_concat []
                            (prop (default_params params) "eventSource"))
                         (lit ","))] |} in
     ApplicationsAPI.subscribe server params (new config sent)
     = (inr (rp_settle (server sent r)), new config (sent ++ [r])))
  ∧ (let r := request_for config
                {| method := DELETE;
                   uri := baseUrl_of config
                            ++ lit "/applications/undefined/subscription";
                   qs := Some
                     [("eventSource"%string,
                       Array_join
                         (Array_concat []
                            (prop (default_params params) "eventSource"))
                         (lit ","))] |} in
     ApplicationsAPI.unsubscribe server params (new config sent)
     = (inr (rp_settle (server sent r)), new config (sent ++ [r]))).
Proof.
  intros Habsent.
  assert (prop (default_params params) "applicationName" = JUndefined)
    as Hname.
  { destruct Habsent as [-> | (p & -> & Hp)].
    - reflexivity.
    - by apply prop_missing. }
  rewrite get_run, subscribe_run, unsubscribe_run, Hname,
    encodeURIComponent_undefined.
  repeat split.
Qed.

(** C9: with [eventSource] an empty sequence, or absent, [subscribe] and
    [unsubscribe] do not throw: each dispatches its request with the
    [eventSource] query parameter set to the empty string. *)
Theorem C9_empty_or_absent_eventSource
  (params : option (gmap string value)) (app : jsstring) :
  params = None
  ∨ (∃ p, params = Some p
          ∧ (p !! "eventSource"%string = None
             ∨ p !! "eventSource"%string = Some (JArray []))) →
  encodeURIComponent (prop (default_params params) "applicationName")
    = inr app →
  (∃ promise,
      outcome (ApplicationsAPI.subscribe server params) (new config sent)
        = inr promise)
  ∧ (qs ∘ options)
      <$> dispatched (ApplicationsAPI.subscribe server params)
            (new config sent)
    = [Some [("eventSource"%string, [])]]
  ∧ (∃ promise,
      outcome (ApplicationsAPI.unsubscribe server params) (new config sent)
        = inr promise)
  ∧ (qs ∘ options)
      <$> dispatched (ApplicationsAPI.unsubscribe server params)
            (new config sent)
    = [Some [("eventSource"%string, [])]].
Proof.
  intros Hes Happ.
  assert (Array_join
            (Array_concat [] (prop (default_params params) "eventSource"))
            (lit ",") = []) as Hjoin.
  { destruct Hes as [-> | (p & -> & [Hp | Hp])].
    - reflexivity.
    - change (default_params (Some p)) with p.
      by rewrite (prop_missing _ _ Hp).
    - change (default_params (Some p)) with p.
      by rewrite (prop_lookup _ _ _ Hp). }
  pose proof (subscribe_run server config sent params) as Hs.
  pose proof (unsubscribe_run server config sent params) as Hu.
  rewrite Happ, Hjoin in Hs, Hu. cbv zeta in Hs, Hu.
  unfold outcome.
  rewrite (dispatched_one _ _ _ _ _ Hs), (dispatched_one _ _ _ _ _ Hu).
  rewrite Hs, Hu. eauto 10.
Qed.

(** C10: the comma join is not injective.  For every sequence of strings,
    the single string made of its elements joined with commas leads
    [subscribe] and [unsubscribe] to exactly the same result, request
    included, as the sequence itself; so the one identifier [ch1,ch2] and
    the two identifiers [ch1] and [ch2] are the same on the wire. *)
Theorem C10_comma_join_not_injective
  (params : gmap string value) (xs : list jsstring) :
  (ApplicationsAPI.subscribe server
     (Some (<["eventSource"%string := JString (comma_joined xs)]> params))
     (new config sent)
   = ApplicationsAPI.subscribe server
       (Some (<["eventSource"%string := JArray (JString <$> xs)]> params))
       (new config sent)
   ∧ ApplicationsAPI.unsubscribe server
       (Some (<["eventSource"%string := JString (comma_joined xs)]> params))
       (new config sent)
     = ApplicationsAPI.unsubscribe server
         (Some (<["eventSource"%string := JArray (JString <$> xs)]> params))
         (new config sent))
  ∧ (let one := Many [lit "ch1,ch2"] in
     let two := Many [lit "ch1"; lit "ch2"] in
     EventSource_elements one ≠ EventSource_elements two
     ∧ ApplicationsAPI.subscribe server
         (Some (<["eventSource"%string := EventSource_value one]> params))
         (new config sent)
       = ApplicationsAPI.subscribe server
           (Some (<["eventSource"%string := EventSource_value two]> params))
           (new config sent)
     ∧ ApplicationsAPI.unsubscribe server
         (Some (<["eventSource"%string := EventSource_value one]> params))
         (new config sent)
       = ApplicationsAPI.unsubscribe server
           (Some (<["eventSource"%string := EventSource_value two]> params))
           (new config sent)).
Proof.
  assert (∀ v1 v2,
    Array_join (Array_concat [] v1) (lit ",")
      = Array_join (Array_concat [] v2) (lit ",") →
    ApplicationsAPI.subscribe server
      (Some (<["eventSource"%string := v1]> params)) (new config sent)
    = ApplicationsAPI.subscribe server
        (Some (<["eventSource"%string := v2]> params)) (new config sent)
    ∧ ApplicationsAPI.unsubscribe server
        (Some (<["eventSource"%string := v1]> params)) (new config sent)
      = ApplicationsAPI.unsubscribe server
          (Some (<["eventSource"%string := v2]> params)) (new config sent))
    as Hsame.
  { intros v1 v2 Hjoin.
    rewrite !subscribe_run, !unsubscribe_run.
    change (default_params (Some ?o)) with o.
    rewrite !prop_insert_eq, !(prop_insert_ne _ "eventSource") by done.
    by rewrite Hjoin. }
  split.
  - apply Hsame. by rewrite joined_one_string, joined_string_array.
  - cbv zeta. split; [discriminate|]. by apply Hsame.
Qed.

End Claims.

(** ** The built-ins and the scenarios of the specification, evaluated *)

Example Encode_space_and_slash :
  Encode (lit "my app/1") = Some (lit "my%20app%2F1").
Proof. reflexivity. Qed.

Example Encode_marks_untouched :
  Encode (lit "Az09-_.!~*'()") = Some (lit "Az09-_.!~*'()").
Proof. reflexivity. Qed.

Example Encode_two_octets : Encode [0xE9] = Some (lit "%C3%A9").
Proof. reflexivity. Qed.

Example Encode_three_octets : Encode [0x20AC] = Some (lit "%E2%82%AC").
Proof. reflexivity. Qed.

Example Encode_surrogate_pair :
  Encode [0xD83D; 0xDE00] = Some (lit "%F0%9F%98%80").
Proof. reflexivity. Qed.

Example Encode_unpaired_surrogate :
  Encode (lit "a b" ++ [0xD800]) = None ∧ Encode [0xDC00; 0xD800] = None.
Proof. split; reflexivity. Qed.

Example ToString_nested_array :
  ToString (JArray [JString (lit "a"); JNull; JUndefined;
                    JArray [JString (lit "b"); JBoolean true]])
  = lit "a,,,b,true".
Proof. reflexivity. Qed.

Example get_unpaired_surrogate_throws :
  let params : gmap string value :=
    {[ "applicationName"%string := JString (lit "a b" ++ [0xD800]) ]} in
  ApplicationsAPI.get (always (HttpResponse 200 app1)) (Some params)
    (new ari_config [])
  = (inl URIError, new ari_config []).
Proof. reflexivity. Qed.

Example list_resolves_with_the_body :
  outcome (ApplicationsAPI.list (always (HttpResponse 200 [app1])))
    (new ari_config [])
  = inr (Resolved [app1]).
Proof. reflexivity. Qed.

Example subscribe_sequence_ch1_ch2 :
  let params : gmap string value :=
    {[ "applicationName"%string := JString (lit "app1");
       "eventSource"%string
         := JArray [JString (lit "ch1"); JString (lit "ch2")] ]} in
  (qs ∘ options)
    <$> dispatched
          (ApplicationsAPI.subscribe (always (HttpResponse 200 app1))
             (Some params))
          (new ari_config [])
  = [Some [("eventSource"%string, lit "ch1,ch2")]].
Proof. reflexivity. Qed.

Example subscribe_422_rejects :
  let params : gmap string value :=
    {[ "applicationName"%string := JString (lit "app1");
       "eventSource"%string := JString (lit "channel:1234") ]} in
  outcome
    (ApplicationsAPI.subscribe (always (HttpResponse 422 app1)) (Some params))
    (new ari_config [])
  = inr (Rejected (StatusCodeError 422 app1)).
Proof. reflexivity. Qed.

Example unsubscribe_dev1_dev2 :
  let params : gmap string value :=
    {[ "applicationName"%string := JString (lit "app1");
       "eventSource"%string
         := JArray [JString (lit "dev1"); JString (lit "dev2")] ]} in
  ApplicationsAPI.unsubscribe (always (HttpResponse 200 app1)) (Some params)
    (new ari_config [])
  = (inr (Resolved app1),
     new ari_config
       [request_for ari_config
          {| method := DELETE;
             uri := lit
               "http://myserver.local:8088/ari/applications/app1/subscription";
             qs := Some [("eventSource"%string, lit "dev1,dev2")] |}]).
Proof. reflexivity. Qed.

Example transport_failure_rejects :
  outcome
    (ApplicationsAPI.list
       (always (@TransportFailure (gmap string value) (lit "ECONNREFUSED"))))
    (new ari_config [])
  = inr (Rejected (RequestError (lit "ECONNREFUSED"))).
Proof. reflexivity. Qed.

Example call_before_construction_throws :
  ApplicationsAPI.list (always (HttpResponse 200 [app1]))
    {| this := blank; wire := [] |}
  = (inl TypeError, {| this := blank; wire := [] |}).
Proof. reflexivity. Qed.

(** ** The claims at concrete inputs *)

(** C1 at the single string [PJSIP/6001]. *)
Lemma C1_witness :
  let params : gmap string value :=
    {[ "applicationName"%string := JString (lit "app1");
       "eventSource"%string := JString (lit "PJSIP/6001") ]} in
  params !! "eventSource"%string
    = Some (EventSource_value (One (lit "PJSIP/6001")))
  ∧ encodeURIComponent (prop params "applicationName") = inr (lit "app1")
  ∧ (qs ∘ options)
      <$> dispatched
            (ApplicationsAPI.subscribe (always (HttpResponse 200 app1))
               (Some params))
            (new ari_config [])
    = [Some [("eventSource"%string, lit "PJSIP/6001")]].
Proof.
  intros params.
  assert (params !! "eventSource"%string
          = Some (EventSource_value (One (lit "PJSIP/6001")))) as H1
    by reflexivity.
  assert (encodeURIComponent (prop params "applicationName")
          = inr (lit "app1")) as H2 by reflexivity.
  split; [exact H1|]. split; [exact H2|].
  exact (proj1 (proj2
    (C1_eventSource_comma_joined (always (HttpResponse 200 app1))
       ari_config [] params (One (lit "PJSIP/6001")) (lit "app1") H1 H2))).
Defined.

(** C2 at the application [app1] and the event sources [ch1], [ch2]. *)
Lemma C2_witness :
  let params : option (gmap string value) :=
    Some {[ "applicationName"%string := JString (lit "app1");
            "eventSource"%string
              := JArray [JString (lit "ch1"); JString (lit "ch2")] ]} in
  let server := always (HttpResponse 200 app1) in
  encodeURIComponent (prop (default_params params) "applicationName")
    = inr (lit "app1")
  ∧ options <$> dispatched (ApplicationsAPI.list server) (new ari_config [])
    = [{| method := GET;
          uri := lit "http://myserver.local:8088/ari/applications";
          qs := None |}]
  ∧ options
      <$> dispatched (ApplicationsAPI.get server params) (new ari_config [])
    = [{| method := GET;
          uri := lit "http://myserver.local:8088/ari/applications/app1";
          qs := None |}]
  ∧ options
      <$> dispatched (ApplicationsAPI.subscribe server params)
            (new ari_config [])
    = [{| method := POST;
          uri := lit
            "http://myserver.local:8088/ari/applications/app1/subscription";
          qs := Some [("eventSource"%string, lit "ch1,ch2")] |}]
  ∧ options
      <$> dispatched (ApplicationsAPI.unsubscribe server params)
            (new ari_config [])
    = [{| method := DELETE;
          uri := lit
            "http://myserver.local:8088/ari/applications/app1/subscription";
          qs := Some [("eventSource"%string, lit "ch1,ch2")] |}].
Proof.
  intros params server.
  assert (encodeURIComponent (prop (default_params params) "applicationName")
          = inr (lit "app1")) as H by reflexivity.
  split; [exact H|].
  exact (C2_method_and_path server ari_config [] params (lit "app1") H).
Defined.

(** C3 at a name with a space in it. *)
Lemma C3_witness :
  let params : gmap string value :=
    {[ "applicationName"%string := JString (lit "my app") ]} in
  params !! "applicationName"%string = Some (JString (lit "my app"))
  ∧ isWellFormed (lit "my app") = true
  ∧ dispatched
      (ApplicationsAPI.get (always (HttpResponse 200 app1)) (Some params))
      (new ari_config [])
    = [request_for ari_config
         {| method := GET;
            uri := lit
              "http://myserver.local:8088/ari/applications/my%20app";
            qs := None |}].
Proof.
  intros params.
  assert (params !! "applicationName"%string = Some (JString (lit "my app")))
    as H1 by reflexivity.
  assert (isWellFormed (lit "my app") = true) as H2 by reflexivity.
  split; [exact H1|]. split; [exact H2|].
  destruct (C3_get_one_GET_to_encoded_name (always (HttpResponse 200 app1))
              ari_config [] params (lit "my app") H1 H2)
    as (cps & Hcps & Hd).
  vm_compute in Hcps. injection Hcps as <-. exact Hd.
Defined.

(** C4 at a name with a space and a slash in it. *)
Lemma C4_witness :
  let params : gmap string value :=
    {[ "applicationName"%string := JString (lit "my app/1") ]} in
  let server := always (HttpResponse 200 app1) in
  is_jsstring (lit "my app/1")
  ∧ params !! "applicationName"%string = Some (JString (lit "my app/1"))
  ∧ Forall (λ c, component_char c = true) (lit "my%20app%2F1")
  ∧ (∀ c, c ∈ path_delimiters → c ∉ lit "my%20app%2F1")
  ∧ (∀ c, uriUnescaped c = true → c ∈ lit "my app/1"
          → c ∈ lit "my%20app%2F1")
  ∧ (uri ∘ options)
      <$> dispatched (ApplicationsAPI.get server (Some params))
            (new ari_config [])
    = [lit "http://myserver.local:8088/ari/applications/my%20app%2F1"]
  ∧ (uri ∘ options)
      <$> dispatched (ApplicationsAPI.subscribe server (Some params))
            (new ari_config [])
    = [lit "http://myserver.local:8088/ari/applications/my%20app%2F1/subscription"]
  ∧ (uri ∘ options)
      <$> dispatched (ApplicationsAPI.unsubscribe server (Some params))
            (new ari_config [])
    = [lit "http://myserver.local:8088/ari/applications/my%20app%2F1/subscription"].
Proof.
  intros params server.
  assert (is_jsstring (lit "my app/1")) as H1
    by (apply (bool_decide_unpack _); vm_compute; exact I).
  assert (params !! "applicationName"%string
          = Some (JString (lit "my app/1"))) as H2 by reflexivity.
  split; [exact H1|]. split; [exact H2|].
  exact (C4_name_percent_encoded_in_path server ari_config [] params
           (lit "my app/1") H1 H2).
Defined.

(** C4 as the specification states it fails at two names.  In [a*b] the
    asterisk, a reserved character, reaches the request path as it is.  In
    the name made of [a b] and an unpaired surrogate the space is never
    encoded into any path: the call throws and no request is dispatched. *)
Lemma C4_counterexample :
  let server := always (HttpResponse 200 app1) in
  let starred : gmap string value :=
    {[ "applicationName"%string := JString (lit "a*b") ]} in
  let unpaired : gmap string value :=
    {[ "applicationName"%string := JString (lit "a b" ++ [0xD800]) ]} in
  (42 ∈ reserved_in_path ∧ 42 ∈ lit "a*b"
   ∧ (uri ∘ options)
       <$> dispatched (ApplicationsAPI.get server (Some starred))
             (new ari_config [])
     = [lit "http://myserver.local:8088/ari/applications/" ++ lit "a*b"]
   ∧ (uri ∘ options)
       <$> dispatched (ApplicationsAPI.subscribe server (Some starred))
             (new ari_config [])
     = [lit "http://myserver.local:8088/ari/applications/" ++ lit "a*b"
          ++ lit "/subscription"]
   ∧ (uri ∘ options)
       <$> dispatched (ApplicationsAPI.unsubscribe server (Some starred))
             (new ari_config [])
     = [lit "http://myserver.local:8088/ari/applications/" ++ lit "a*b"
          ++ lit "/subscription"])
  ∧ (32 ∈ reserved_in_path ∧ 32 ∈ lit "a b" ++ [0xD800]
     ∧ ApplicationsAPI.get server (Some unpaired) (new ari_config [])
       = (inl URIError, new ari_config [])
     ∧ dispatched (ApplicationsAPI.get server (Some unpaired))
         (new ari_config []) = []).
Proof.
  intros server starred unpaired.
  repeat split; try reflexivity;
    apply (bool_decide_unpack _); vm_compute; exact I.
Qed.

(** C6 at [get] for an application the server does not know. *)
Lemma C6_witness :
  let k := CallGet (Some {[ "applicationName"%string
                              := JString (lit "missing") ]}) in
  let r := request_for ari_config
             {| method := GET;
                uri := lit
                  "http://myserver.local:8088/ari/applications/missing";
                qs := None |} in
  let body : gmap string value :=
    {[ "message"%string := JString (lit "Application not found") ]} in
  r ∈ dispatched (invoke (always not_found) k) (new ari_config [])
  ∧ always not_found [] r = HttpResponse 404 body
  ∧ is2xx 404 = false
  ∧ outcome (invoke (always not_found) k) (new ari_config [])
    = inr (Rejected (StatusCodeError 404 body))
  ∧ dispatched (invoke (always not_found) k) (new ari_config []) = [r].
Proof.
  intros k r body.
  assert (r ∈ dispatched (invoke (always not_found) k) (new ari_config []))
    as H1 by (vm_compute; constructor).
  assert (always not_found [] r = HttpResponse 404 body) as H2
    by reflexivity.
  assert (is2xx 404 = false) as H3 by reflexivity.
  split; [exact H1|]. split; [exact H2|]. split; [exact H3|].
  exact (C6_non_2xx_rejects_with_status_and_body (always not_found)
           ari_config [] k r 404%Z body H1 H2 H3).
Defined.

(** C8 at a call of [get] without arguments. *)
Lemma C8_witness :
  let server := always (HttpResponse 200 app1) in
  let r := request_for ari_config
             {| method := GET;
                uri := lit
                  "http://myserver.local:8088/ari/applications/undefined";
                qs := None |} in
  (@None (gmap string value) = None
   ∨ (∃ p : gmap string value,
        None = Some p ∧ p !! "applicationName"%string = None))
  ∧ ApplicationsAPI.get server None (new ari_config [])
    = (inr (Resolved app1), new ari_config [r]).
Proof.
  intros server r.
  assert (@None (gmap string value) = None
          ∨ (∃ p : gmap string value,
               None = Some p ∧ p !! "applicationName"%string = None)) as H
    by (left; reflexivity).
  split; [exact H|].
  exact (proj1 (C8_absent_applicationName server ari_config [] None H)).
Defined.

(** C9 at an empty sequence of event sources. *)
Lemma C9_witness :
  let params : option (gmap string value) :=
    Some {[ "applicationName"%string := JString (lit "app1");
            "eventSource"%string := JArray [] ]} in
  let server := always (HttpResponse 200 app1) in
  (params = None
   ∨ (∃ p, params = Some p
           ∧ (p !! "eventSource"%string = None
              ∨ p !! "eventSource"%string = Some (JArray []))))
  ∧ encodeURIComponent (prop (default_params params) "applicationName")
    = inr (lit "app1")
  ∧ (∃ promise,
      outcome (ApplicationsAPI.subscribe server params) (new ari_config [])
        = inr promise)
  ∧ (qs ∘ options)
      <$> dispatched (ApplicationsAPI.subscribe server params)
            (new ari_config [])
    = [Some [("eventSource"%string, [])]]
  ∧ (∃ promise,
      outcome (ApplicationsAPI.unsubscribe server params) (new ari_config [])
        = inr promise)
  ∧ (qs ∘ options)
      <$> dispatched (ApplicationsAPI.unsubscribe server params)
            (new ari_config [])
    = [Some [("eventSource"%string, [])]].
Proof.
  intros params server.
  assert (params = None
          ∨ (∃ p, params = Some p
                  ∧ (p !! "eventSource"%string = None
                     ∨ p !! "eventSource"%string = Some (JArray [])))) as H1.
  { right. eexists. split; [reflexivity|]. right. reflexivity. }
  assert (encodeURIComponent (prop (default_params params) "applicationName")
          = inr (lit "app1")) as H2 by reflexivity.
  split; [exact H1|]. split; [exact H2|].
  exact (C9_empty_or_absent_eventSource server ari_config [] params
           (lit "app1") H1 H2).
Defined.


(** * Further properties of the class *)

(** ** Errors, and the one request of a call *)

Lemma Encode_None_iff (s : jsstring) :
  Encode s = None ↔ isWellFormed s = false.
Proof.
  rewrite Encode_code_points. unfold isWellFormed.
  rewrite bool_decide_eq_false.
  destruct (code_points s) as [cps|]; cbn [fmap option_fmap option_map].
  - split; [done|]. intros H. destruct H. by exists cps.
  - split; [|done]. intros _ [cps Hcps]. done.
Qed.

Lemma encodeURIComponent_throws_iff (v : value) (e : exn) :
  encodeURIComponent v = inl e
  ↔ e = URIError ∧ isWellFormed (ToString v) = false.
Proof.
  unfold encodeURIComponent. rewrite <- Encode_None_iff.
  destruct (Encode (ToString v)); split.
  - done.
  - by intros [_ ?].
  - by intros [= <-].
  - by intros [-> _].
Qed.

Section Calls.

Context {Body : Type}.
Variable server : list Request → Request → Reply Body.
Variable config : option (gmap string value).
Variable sent : list Request.

(** What a call on a constructed client does, by the application name it
    reads. *)
Lemma invoke_by_name (k : Call) :
  match Call_applicationName k with
  | None =>
      ∃ opts,
        invoke server k (new config sent)
        = (inr (rp_settle (server sent (request_for config opts))),
           new config (sent ++ [request_for config opts]))
  | Some name =>
      match encodeURIComponent name with
      | inl e => invoke server k (new config sent) = (inl e, new config sent)
      | inr app =>
          ∃ opts,
            invoke server k (new config sent)
            = (inr (rp_settle (server sent (request_for config opts))),
               new config (sent ++ [request_for config opts]))
      end
  end.
Proof.
  destruct k as [|params|params|params]; cbn [invoke Call_applicationName].
  - eexists. apply list_run.
  - rewrite get_run. destruct (encodeURIComponent _); eauto.
  - rewrite subscribe_run. destruct (encodeURIComponent _); eauto.
  - rewrite unsubscribe_run. destruct (encodeURIComponent _); eauto.
Qed.

(** For the arguments the embedding covers, a [params] that is omitted or
    is an object whose properties are [undefined], [null], booleans,
    strings or arrays of these: a call on a constructed client throws
    nothing but a URIError, and throws it exactly when the string form of
    the application name it was given has an unpaired surrogate; [list],
    which reads no name, never throws.  ([null] as [params], or a Symbol
    as a name, is not among these arguments.) *)
Theorem call_throws_iff_name_ill_formed (k : Call) (e : exn) :
  outcome (invoke server k) (new config sent) = inl e
  ↔ e = URIError
    ∧ ∃ name, Call_applicationName k = Some name
              ∧ isWellFormed (ToString name) = false.
Proof.
  pose proof (invoke_by_name k) as Hk. unfold outcome.
  destruct (Call_applicationName k) as [name|].
  - destruct (encodeURIComponent name) as [e'|app] eqn:Henc.
    + rewrite Hk. cbn [fst]. split.
      * intros [= <-]. apply encodeURIComponent_throws_iff in Henc as [-> ?].
        eauto.
      * intros [-> _].
        by apply encodeURIComponent_throws_iff in Henc as [-> ?].
    + destruct Hk as [opts ->]. cbn [fst]. split; [done|].
      intros [-> (name' & [= <-] & Hill)].
      assert (encodeURIComponent name = inl URIError) as Hthrow
        by by apply encodeURIComponent_throws_iff.
      congruence.
  - destruct Hk as [opts ->]. cbn [fst]. split; [done|].
    by intros [_ (name & ? & _)].
Qed.

(** A call that throws has dispatched nothing.  A call that returns has
    dispatched exactly one request, and what it returns is the promise of
    the request library for that request: settled by the reply of the
    server to it, in the state the earlier requests left the server in. *)
Theorem call_returns_promise_of_its_one_request (k : Call) :
  match outcome (invoke server k) (new config sent) with
  | inl _ => dispatched (invoke server k) (new config sent) = []
  | inr promise =>
      ∃ r, dispatched (invoke server k) (new config sent) = [r]
           ∧ promise = rp_settle (server sent r)
  end.
Proof.
  unfold outcome.
  destruct (invoke_cases server config sent k) as [[e He] | [opts Ho]].
  - rewrite (dispatched_none _ _ _ _ He), He. reflexivity.
  - rewrite (dispatched_one _ _ _ _ _ Ho), Ho. cbn [fst]. eauto.
Qed.

End Calls.

(** ** Sequences of calls *)

Section Sequences.

Context {Body : Type}.
Variable server : list Request → Request → Reply Body.
Variable config : option (gmap string value).

Lemma dispatched_any_history (k : Call) (sent : list Request) :
  dispatched (invoke server k) (new config sent)
  = dispatched (invoke server k) (new config []).
Proof. by apply dispatched_this_only. Qed.

Lemma invoke_world (k : Call) (sent : list Request) :
  (invoke server k (new config sent)).2
  = new config (sent ++ dispatched (invoke server k) (new config [])).
Proof.
  rewrite <- (dispatched_any_history k sent).
  destruct (invoke_cases server config sent k) as [[e He] | [opts Ho]].
  - rewrite (dispatched_none _ _ _ _ He), He, app_nil_r. reflexivity.
  - rewrite (dispatched_one _ _ _ _ _ Ho), Ho. reflexivity.
Qed.

Lemma dispatched_at_most_one (k : Call) (sent : list Request) :
  (length (dispatched (invoke server k) (new config sent)) ≤ 1)%nat.
Proof.
  destruct (invoke_cases server config sent k) as [[e He] | [opts Ho]].
  - rewrite (dispatched_none _ _ _ _ He). cbn. lia.
  - rewrite (dispatched_one _ _ _ _ _ Ho). cbn. lia.
Qed.

Lemma invoke_all_world (ks : list Call) (sent : list Request) :
  invoke_all server ks (new config sent)
  = new config
      (sent ++ concat (map (λ k, dispatched (invoke server k) (new config []))
                         ks)).
Proof.
  revert sent. induction ks as [|k ks IH]; intros sent; cbn [invoke_all].
  - by rewrite app_nil_r.
  - rewrite invoke_world, IH. cbn [map concat]. by rewrite app_assoc.
Qed.

(** Calls do not interfere: after any sequence of calls the wire holds, in
    the order of the calls, the request each call would have dispatched had
    it been the only one, and no call adds more than one request. *)
Theorem calls_dispatch_independently (ks : list Call) (sent : list Request) :
  wire (invoke_all server ks (new config sent))
  = sent ++ concat (map (λ k, dispatched (invoke server k) (new config []))
                      ks)
  ∧ (length (wire (invoke_all server ks (new config sent)))
     ≤ length sent + length ks)%nat.
Proof.
  rewrite invoke_all_world, new_wire. split; [reflexivity|].
  rewrite length_app. apply Nat.add_le_mono_l.
  induction ks as [|k ks IH]; cbn [map concat length]; [lia|].
  rewrite length_app.
  pose proof (dispatched_at_most_one k []). lia.
Qed.

(** The shape of every request a call dispatches. *)
Lemma dispatched_shape (k : Call) (sent : list Request) (r : Request) :
  r ∈ dispatched (invoke server k) (new config sent) →
  bound r = bound_of config
  ∧ ∃ rest,
      uri (options r) = baseUrl_of config ++ lit "/applications" ++ rest
      ∧ (rest = [] ∨ ∃ tail, rest = lit "/" ++ tail).
Proof.
  destruct k as [|params|params|params]; cbn [invoke].
  - rewrite (dispatched_one _ _ _ _ _ (list_run server config sent)).
    intros ->%list_elem_of_singleton. split; [reflexivity|].
    exists []. split; [|by left]. by rewrite app_nil_r.
  - pose proof (get_run server config sent params) as Hrun.
    destruct (encodeURIComponent _) as [e|app].
    + rewrite (dispatched_none _ _ _ _ Hrun). by intros ?%elem_of_nil.
    + rewrite (dispatched_one _ _ _ _ _ Hrun).
      intros ->%list_elem_of_singleton. split; [reflexivity|].
      exists (lit "/" ++ app). split; [done|]. right. by eexists.
  - pose proof (subscribe_run server config sent params) as Hrun.
    destruct (encodeURIComponent _) as [e|app].
    + rewrite (dispatched_none _ _ _ _ Hrun). by intros ?%elem_of_nil.
    + rewrite (dispatched_one _ _ _ _ _ Hrun).
      intros ->%list_elem_of_singleton. split; [reflexivity|].
      exists (lit "/" ++ app ++ lit "/subscription").
      split; [done|]. right. by eexists.
  - pose proof (unsubscribe_run server config sent params) as Hrun.
    destruct (encodeURIComponent _) as [e|app].
    + rewrite (dispatched_none _ _ _ _ Hrun). by intros ?%elem_of_nil.
    + rewrite (dispatched_one _ _ _ _ _ Hrun).
      intros ->%list_elem_of_singleton. split; [reflexivity|].
      exists (lit "/" ++ app ++ lit "/subscription").
      split; [done|]. right. by eexists.
Qed.

Lemma wire_shape (ks : list Call) (r : Request) :
  r ∈ wire (invoke_all server ks (new config [])) →
  ∃ k, k ∈ ks ∧ r ∈ dispatched (invoke server k) (new config []).
Proof.
  rewrite invoke_all_world, new_wire, app_nil_l.
  intros (rs & Hrs & Hr)%list_elem_of_In%in_concat.
  apply in_map_iff in Hrs as (k & <- & Hk).
  exists k. by rewrite <- !list_elem_of_In in *.
Qed.

(** Every request a client ever dispatches carries the credentials its
    constructor was given, as [auth], and [json: true]. *)
Theorem every_request_carries_the_credentials (ks : list Call) :
  Forall
    (λ r, bound r
          = {| auth := (prop (default_params config) "username",
                        prop (default_params config) "password");
               json := true |})
    (wire (invoke_all server ks (new config []))).
Proof.
  apply Forall_forall. intros r (k & _ & Hr)%wire_shape.
  by apply dispatched_shape in Hr as [-> _].
Qed.

(** The uri of every request a client ever dispatches is made of the string
    form of the configured [baseUrl], then [/applications], then either
    nothing or a [/] and what the call adds. *)
Theorem every_request_under_applications (ks : list Call) :
  Forall
    (λ r, ∃ rest,
       uri (options r)
       = ToString (prop (default_params config) "baseUrl")
           ++ lit "/applications" ++ rest
       ∧ (rest = [] ∨ ∃ tail, rest = lit "/" ++ tail))
    (wire (invoke_all server ks (new config []))).
Proof.
  apply Forall_forall. intros r (k & _ & Hr)%wire_shape.
  by apply dispatched_shape in Hr as [_ ?].
Qed.

End Sequences.

(** The constructor validates nothing.  Built without a [baseUrl], the
    client dispatches its requests all the same, one for each call, and
    their uris start with the string [undefined] where the base url should
    be. *)
Theorem missing_baseUrl_is_sent_as_undefined {Body : Type}
  (server : list Request → Request → Reply Body)
  (config : option (gmap string value)) (sent : list Request)
  (params : option (gmap string value)) (app : jsstring) :
  config = None
  ∨ (∃ c, config = Some c ∧ c !! "baseUrl"%string = None) →
  encodeURIComponent (prop (default_params params) "applicationName")
    = inr app →
  (uri ∘ options)
    <$> dispatched (ApplicationsAPI.list server) (new config sent)
  = [lit "undefined/applications"]
  ∧ (uri ∘ options)
      <$> dispatched (ApplicationsAPI.get server params) (new config sent)
    = [lit "undefined/applications/" ++ app]
  ∧ (uri ∘ options)
      <$> dispatched (ApplicationsAPI.subscribe server params)
            (new config sent)
    = [lit "undefined/applications/" ++ app ++ lit "/subscription"]
  ∧ (uri ∘ options)
      <$> dispatched (ApplicationsAPI.unsubscribe server params)
            (new config sent)
    = [lit "undefined/applications/" ++ app ++ lit "/subscription"].
Proof.
  intros Hconfig Happ.
  assert (baseUrl_of config = lit "undefined") as Hbase.
  { unfold baseUrl_of.
    destruct Hconfig as [-> | (c & -> & Hc)]; [reflexivity|].
    change (default_params (Some c)) with c.
    by rewrite (prop_missing _ _ Hc). }
  pose proof (list_run server config sent) as Hl.
  pose proof (get_run server config sent params) as Hg.
  pose proof (subscribe_run server config sent params) as Hs.
  pose proof (unsubscribe_run server config sent params) as Hu.
  rewrite Happ in Hg, Hs, Hu. cbv zeta in Hl, Hg, Hs, Hu.
  rewrite (dispatched_one _ _ _ _ _ Hl), (dispatched_one _ _ _ _ _ Hg),
    (dispatched_one _ _ _ _ _ Hs), (dispatched_one _ _ _ _ _ Hu).
  cbn [fmap list_fmap compose options uri request_for].
  rewrite Hbase. repeat split.
Qed.

(** ** More on the percent-encoding of names *)

Lemma utf8_octets_length (cp : N) :
  (1 ≤ length (utf8_octets cp) ≤ 4)%nat
  ∧ (cp < 0x10000 → (length (utf8_octets cp) ≤ 3)%nat)
  ∧ (0x10000 ≤ cp → length (utf8_octets cp) = 4%nat).
Proof.
  unfold utf8_octets.
  destruct (N.ltb_spec cp 0x80); [cbn; lia|].
  destruct (N.ltb_spec cp 0x800); [cbn; lia|].
  destruct (N.ltb_spec cp 0x10000); cbn; lia.
Qed.

Lemma pct_code_point_length (cp : N) :
  length (pct_code_point cp) = (3 * length (utf8_octets cp))%nat.
Proof.
  unfold pct_code_point.
  induction (utf8_octets cp) as [|b bs IH]; [reflexivity|].
  cbn [map concat length]. rewrite length_app, IH. cbn. lia.
Qed.

Lemma pct_code_point_head (cp : N) :
  ∃ more, pct_code_point cp = 37 :: more.
Proof.
  unfold pct_code_point.
  pose proof (utf8_octets_length cp) as [[Hlen _] _].
  destruct (utf8_octets cp) as [|b bs]; [cbn in Hlen; lia|].
  cbn [map concat pct_octet app]. eauto.
Qed.

Lemma uriUnescaped_percent : uriUnescaped 37 = false.
Proof. reflexivity. Qed.

(** A string of characters that need no escape is its own encoding. *)
Lemma Encode_unescaped (s : jsstring) :
  Forall (λ c, uriUnescaped c = true) s → Encode s = Some s.
Proof.
  induction 1 as [|c rest Hc _ IH]; [reflexivity|].
  cbn [Encode]. by rewrite Hc, IH.
Qed.

(** The encoding is never shorter than the string, and as long only when
    nothing was escaped. *)
Lemma Encode_length_lower (s e : jsstring) :
  Encode s = Some e →
  (length s ≤ length e)%nat
  ∧ (length e = length s → Forall (λ c, uriUnescaped c = true) s).
Proof.
  revert e. induction s as [|c rest IH IH2] using jsstring_pair_ind;
    intros e; cbn [Encode].
  { intros [= <-]. split; [done|]. constructor. }
  destruct (uriUnescaped c) eqn:Hu.
  - destruct (Encode rest) as [e1|]; [|done]. intros [= <-].
    destruct (IH e1 eq_refl) as [Hle Heq]. cbn [length]. split; [lia|].
    intros Hlen. constructor; [done|]. apply Heq. lia.
  - destruct (isTrailingSurrogate c); [done|].
    destruct (isLeadingSurrogate c).
    + destruct rest as [|c2 rest2]; [done|].
      destruct (isTrailingSurrogate c2); [|done].
      destruct (Encode rest2) as [e2|] eqn:He2; [|done]. intros [= <-].
      destruct (IH2 c2 rest2 eq_refl e2 He2) as [Hle _].
      rewrite length_app, pct_code_point_length. cbn [length].
      pose proof (utf8_octets_length (UTF16SurrogatePairToCodePoint c c2))
        as [[? _] _].
      split; lia.
    + destruct (Encode rest) as [e1|]; [|done]. intros [= <-].
      destruct (IH e1 eq_refl) as [Hle _].
      rewrite length_app, pct_code_point_length. cbn [length].
      pose proof (utf8_octets_length c) as [[? _] _].
      split; lia.
Qed.


Lemma Encode_fixed_iff (s : jsstring) :
  Encode s = Some s ↔ Forall (λ c, uriUnescaped c = true) s.
Proof.
  split; [|apply Encode_unescaped].
  intros He. by apply (Encode_length_lower s s).
Qed.





Section Names.

Context {Body : Type}.
Variable server : list Request → Request → Reply Body.
Variable config : option (gmap string value).
Variable sent : list Request.

(** The uri [get] dispatches for a name that is a string, by the encoding of
    the name. *)
Lemma get_uri_iff (params : gmap string value) (s e : jsstring) :
  params !! "applicationName"%string = Some (JString s) →
  (uri ∘ options)
    <$> dispatched (ApplicationsAPI.get server (Some params))
          (new config sent)
  = [baseUrl_of config ++ lit "/applications/" ++ e]
  ↔ Encode s = Some e.
Proof.
  intros Hname.
  pose proof (get_run server config sent (Some params)) as Hrun.
  change (default_params (Some params)) with params in Hrun.
  rewrite (prop_lookup _ _ _ Hname) in Hrun.
  unfold encodeURIComponent in Hrun. cbn [ToString] in Hrun.
  destruct (Encode s) as [a|].
  - cbv zeta in Hrun. rewrite (dispatched_one _ _ _ _ _ Hrun).
    cbn [fmap list_fmap compose options uri request_for]. split.
    + intros [= H]. apply (app_inv_head (baseUrl_of config)) in H.
      by apply (app_inv_head (lit "/applications/")) in H as ->.
    + by intros [= ->].
  - by rewrite (dispatched_none _ _ _ _ Hrun).
Qed.

(** [get] puts the name in the uri as it was given exactly when the name
    consists of letters, digits and the marks [- _ . ! ~ * ' ( )]; any other
    character changes it. *)
Theorem get_sends_name_unchanged_iff
  (params : gmap string value) (s : jsstring) :
  (uri ∘ options)
    <$> dispatched
          (ApplicationsAPI.get server
             (Some (<["applicationName"%string := JString s]> params)))
          (new config sent)
  = [baseUrl_of config ++ lit "/applications/" ++ s]
  ↔ Forall (λ c, uriUnescaped c = true) s.
Proof.
  rewrite (get_uri_iff _ s s (lookup_insert_eq _ _ _)).
  apply Encode_fixed_iff.
Qed.



End Names.

(** ** The encoding of names loses nothing *)

(** Linear arithmetic with division and remainder by constants. *)
Ltac div_lia := zify; Z.to_euclidean_division_equations; lia.

(** Where the bits of two numbers do not overlap, [lor] adds them. *)
Lemma lor_disjoint (h l k : N) :
  l < 2 ^ k → N.lor (h * 2 ^ k) l = h * 2 ^ k + l.
Proof.
  intros Hl.
  assert (N.land (h * 2 ^ k) l = 0) as Hland.
  { apply N.bits_inj. intros n. rewrite N.land_spec, N.bits_0.
    destruct (N.lt_ge_cases n k) as [Hn|Hn].
    - by rewrite N.mul_pow2_bits_low.
    - destruct (N.eq_dec l 0) as [->|Hne].
      + by rewrite N.bits_0, andb_false_r.
      + rewrite (N.bits_above_log2 l n), andb_false_r; [done|].
        apply N.lt_le_trans with k; [|done].
        apply N.log2_lt_pow2; [lia|done]. }
  by rewrite <- N.lxor_lor, <- N.add_nocarry_lxor.
Qed.

Lemma continuation_octet_arith (x : N) :
  N.lor 0x80 (N.land x 0x3F) = 128 + x mod 64.
Proof.
  change 0x3F with (N.ones 6). rewrite N.land_ones.
  change 0x80 with (2 * 2 ^ 6). rewrite lor_disjoint; [done|].
  apply N.mod_lt. done.
Qed.

(** The UTF-8 octets of a code point, as arithmetic. *)
Lemma utf8_octets_cases (cp : N) :
  cp < 0x110000 →
  (cp < 0x80 ∧ utf8_octets cp = [cp])
  ∨ (∃ a b, a < 32 ∧ b < 64 ∧ 2 ≤ a ∧ cp = 64 * a + b
            ∧ utf8_octets cp = [192 + a; 128 + b])
  ∨ (∃ a b c, a < 16 ∧ b < 64 ∧ c < 64 ∧ cp = 4096 * a + 64 * b + c
              ∧ 0x800 ≤ cp
              ∧ utf8_octets cp = [224 + a; 128 + b; 128 + c])
  ∨ (∃ a b c d, a < 8 ∧ b < 64 ∧ c < 64 ∧ d < 64
                ∧ cp = 262144 * a + 4096 * b + 64 * c + d
                ∧ 0x10000 ≤ cp
                ∧ utf8_octets cp = [240 + a; 128 + b; 128 + c; 128 + d]).
Proof.
  intros Hcp. unfold utf8_octets.
  destruct (N.ltb_spec cp 0x80); [by left|]. right.
  destruct (N.ltb_spec cp 0x800); [left|right].
  { exists (cp / 64), (cp mod 64).
    rewrite continuation_octet_arith, N.shiftr_div_pow2.
    change (2 ^ 6) with 64.
    change 0xC0 with (6 * 2 ^ 5). rewrite lor_disjoint by (cbn; div_lia).
    repeat split; try div_lia. }
  destruct (N.ltb_spec cp 0x10000); [left|right].
  { exists (cp / 4096), ((cp / 64) mod 64), (cp mod 64).
    rewrite !continuation_octet_arith, !N.shiftr_div_pow2.
    change (2 ^ 6) with 64. change (2 ^ 12) with 4096.
    change 0xE0 with (14 * 2 ^ 4). rewrite lor_disjoint by (cbn; div_lia).
    repeat split; try div_lia. }
  exists (cp / 262144), ((cp / 4096) mod 64), ((cp / 64) mod 64), (cp mod 64).
  rewrite !continuation_octet_arith, !N.shiftr_div_pow2.
  change (2 ^ 6) with 64. change (2 ^ 12) with 4096.
  change (2 ^ 18) with 262144.
  change 0xF0 with (15 * 2 ^ 4). rewrite lor_disjoint by (cbn; div_lia).
  repeat split; try div_lia.
Qed.

Lemma hex_digit_inj (d1 d2 : N) :
  d1 < 16 → d2 < 16 → hex_digit d1 = hex_digit d2 → d1 = d2.
Proof.
  unfold hex_digit. intros H1 H2.
  destruct (N.ltb_spec d1 10), (N.ltb_spec d2 10); lia.
Qed.

Lemma pct_octet_inj (b1 b2 : N) (x y : jsstring) :
  b1 < 256 → b2 < 256 →
  pct_octet b1 ++ x = pct_octet b2 ++ y → b1 = b2 ∧ x = y.
Proof.
  intros H1 H2. unfold pct_octet. cbn [app]. intros [= Hhi Hlo ->].
  split; [|done].
  rewrite !N.shiftr_div_pow2 in Hhi. change (2 ^ 4) with 16 in Hhi.
  change 15 with (N.ones 4) in Hlo. rewrite !N.land_ones in Hlo.
  change (2 ^ 4) with 16 in Hlo.
  apply hex_digit_inj in Hhi; [|div_lia..].
  apply hex_digit_inj in Hlo; [|div_lia..].
  div_lia.
Qed.

Lemma pct_octets_cons (b : N) (bs : list N) (x : jsstring) :
  concat (map pct_octet (b :: bs)) ++ x
  = pct_octet b ++ (concat (map pct_octet bs) ++ x).
Proof. cbn [map concat]. by rewrite <- app_assoc. Qed.

(** The escapes of a code point tell where they end and which code point
    they stand for. *)
Lemma pct_code_point_prefix (cp1 cp2 : N) (x y : jsstring) :
  cp1 < 0x110000 → cp2 < 0x110000 →
  pct_code_point cp1 ++ x = pct_code_point cp2 ++ y →
  cp1 = cp2 ∧ x = y.
Proof.
  intros H1 H2. unfold pct_code_point.
  destruct (utf8_octets_cases cp1 H1)
    as [(? & ->) | [(a1 & b1 & ? & ? & ? & -> & ->)
       | [(a1 & b1 & c1 & ? & ? & ? & -> & ? & ->)
       | (a1 & b1 & c1 & d1 & ? & ? & ? & ? & -> & ? & ->)]]];
  destruct (utf8_octets_cases cp2 H2)
    as [(? & ->) | [(a2 & b2 & ? & ? & ? & -> & ->)
       | [(a2 & b2 & c2 & ? & ? & ? & -> & ? & ->)
       | (a2 & b2 & c2 & d2 & ? & ? & ? & ? & -> & ? & ->)]]];
  rewrite !pct_octets_cons; cbn [map concat app];
  intros E;
  repeat (apply pct_octet_inj in E as [? E]; [|lia..]);
  try lia;
  try (split; [lia|done]).
Qed.

Lemma percent_encoded_inj (cps1 cps2 : list N) :
  Forall (λ cp, cp < 0x110000) cps1 →
  Forall (λ cp, cp < 0x110000) cps2 →
  percent_encoded cps1 = percent_encoded cps2 → cps1 = cps2.
Proof.
  intros H1. revert cps2.
  induction H1 as [|cp1 cps1 Hcp1 _ IH]; intros cps2 H2.
  - destruct H2 as [|cp2 cps2 _ _]; [done|].
    rewrite percent_encoded_cons. cbn [percent_encoded map concat].
    destruct (uriUnescaped cp2); [done|].
    by destruct (pct_code_point_head cp2) as [more ->].
  - destruct H2 as [|cp2 cps2 Hcp2 H2].
    { rewrite percent_encoded_cons. cbn [percent_encoded map concat].
      destruct (uriUnescaped cp1); [done|].
      by destruct (pct_code_point_head cp1) as [more ->]. }
    rewrite !percent_encoded_cons.
    destruct (uriUnescaped cp1) eqn:Hu1, (uriUnescaped cp2) eqn:Hu2.
    + intros [= -> E]. f_equal. by apply IH.
    + destruct (pct_code_point_head cp2) as [more ->].
      intros [= -> _]. by rewrite uriUnescaped_percent in Hu1.
    + destruct (pct_code_point_head cp1) as [more ->].
      intros [= <- _]. by rewrite uriUnescaped_percent in Hu2.
    + intros [-> E]%pct_code_point_prefix; [|done..].
      f_equal. by apply IH.
Qed.

Lemma code_points_inj (s1 s2 : jsstring) (cps : list N) :
  is_jsstring s1 → is_jsstring s2 →
  code_points s1 = Some cps → code_points s2 = Some cps → s1 = s2.
Proof.
  revert s2 cps.
  induction s1 as [|c1 r1 IH IH2] using jsstring_pair_ind;
    intros s2 cps Hs1 Hs2.
  { cbn [code_points]. intros [= <-].
    destruct s2 as [|c2 r2]; [done|]. cbn [code_points].
    destruct (isTrailingSurrogate c2); [done|].
    destruct (isLeadingSurrogate c2).
    - destruct r2 as [|c3 r3]; [done|].
      destruct (isTrailingSurrogate c3); [|done].
      by destruct (code_points r3).
    - by destruct (code_points r2). }
  destruct s2 as [|c2 r2].
  { cbn [code_points]. intros H [= <-]. revert H.
    destruct (isTrailingSurrogate c1); [done|].
    destruct (isLeadingSurrogate c1).
    - destruct r1 as [|c3 r3]; [done|].
      destruct (isTrailingSurrogate c3); [|done].
      by destruct (code_points r3).
    - by destruct (code_points r1). }
  apply Forall_cons in Hs1 as [Hc1 Hr1].
  apply Forall_cons in Hs2 as [Hc2 Hr2].
  cbn [code_points].
  destruct (isTrailingSurrogate c1); [done|].
  destruct (isTrailingSurrogate c2); [done|].
  destruct (isLeadingSurrogate c1) eqn:Hl1, (isLeadingSurrogate c2) eqn:Hl2.
  - destruct r1 as [|t1 r1']; [done|]. destruct r2 as [|t2 r2']; [done|].
    destruct (isTrailingSurrogate t1) eqn:Ht1; [|done].
    destruct (isTrailingSurrogate t2) eqn:Ht2; [|done].
    destruct (code_points r1') as [q1|] eqn:E1; [|done].
    destruct (code_points r2') as [q2|] eqn:E2; [|done].
    cbn [fmap option_fmap option_map]. intros [= <-] [= Hpair ->].
    apply Forall_cons in Hr1 as [_ Hr1]. apply Forall_cons in Hr2 as [_ Hr2].
    rewrite (IH2 t1 r1' eq_refl r2' q1 Hr1 Hr2 E1 E2).
    unfold isLeadingSurrogate, isTrailingSurrogate,
      UTF16SurrogatePairToCodePoint in *.
    rewrite !andb_true_iff, !N.leb_le in *.
    assert (c1 = c2 ∧ t1 = t2) as [-> ->] by lia. done.
  - destruct r1 as [|t1 r1']; [done|].
    destruct (isTrailingSurrogate t1) eqn:Ht1; [|done].
    destruct (code_points r1') as [q1|]; [|done].
    destruct (code_points r2) as [q2|]; [|done].
    cbn [fmap option_fmap option_map]. intros [= <-] [= Hpair _].
    pose proof (surrogate_pair_range c1 t1 Hl1 Ht1).
    unfold code_unit in *. lia.
  - destruct r2 as [|t2 r2']; [done|].
    destruct (isTrailingSurrogate t2) eqn:Ht2; [|done].
    destruct (code_points r1) as [q1|]; [|done].
    destruct (code_points r2') as [q2|]; [|done].
    cbn [fmap option_fmap option_map]. intros [= <-] [= Hpair _].
    pose proof (surrogate_pair_range c2 t2 Hl2 Ht2).
    unfold code_unit in *. lia.
  - destruct (code_points r1) as [q1|] eqn:E1; [|done].
    destruct (code_points r2) as [q2|] eqn:E2; [|done].
    cbn [fmap option_fmap option_map]. intros [= <-] [= -> ->].
    f_equal. by apply (IH r2 q1).
Qed.

(** Two strings with the same encoding are the same string. *)
Lemma Encode_inj (s1 s2 e : jsstring) :
  is_jsstring s1 → is_jsstring s2 →
  Encode s1 = Some e → Encode s2 = Some e → s1 = s2.
Proof.
  intros Hs1 Hs2. rewrite !Encode_code_points.
  destruct (code_points s1) as [q1|] eqn:E1; [|done].
  destruct (code_points s2) as [q2|] eqn:E2; [|done].
  cbn [fmap option_fmap option_map]. intros [= <-] [= Heq].
  apply percent_encoded_inj in Heq as ->;
    [|by apply (code_points_bound s2)|by apply (code_points_bound s1)].
  by apply (code_points_inj s1 s2 q1).
Qed.

Section Faithful.

Context {Body : Type}.
Variable server : list Request → Request → Reply Body.
Variable config : option (gmap string value).
Variable sent : list Request.

(** The uris the three methods dispatch for a name that is a string. *)
Lemma name_uris (params : gmap string value) (s : jsstring) :
  params !! "applicationName"%string = Some (JString s) →
  (uri ∘ options)
    <$> dispatched (ApplicationsAPI.get server (Some params))
          (new config sent)
  = from_option
      (λ e, [baseUrl_of config ++ lit "/applications/" ++ e]) [] (Encode s)
  ∧ (uri ∘ options)
      <$> dispatched (ApplicationsAPI.subscribe server (Some params))
            (new config sent)
    = from_option
        (λ e, [baseUrl_of config ++ lit "/applications/" ++ e
                 ++ lit "/subscription"]) [] (Encode s)
  ∧ (uri ∘ options)
      <$> dispatched (ApplicationsAPI.unsubscribe server (Some params))
            (new config sent)
    = from_option
        (λ e, [baseUrl_of config ++ lit "/applications/" ++ e
                 ++ lit "/subscription"]) [] (Encode s).
Proof.
  intros Hname.
  pose proof (get_run server config sent (Some params)) as Hg.
  pose proof (subscribe_run server config sent (Some params)) as Hs.
  pose proof (unsubscribe_run server config sent (Some params)) as Hu.
  change (default_params (Some params)) with params in Hg, Hs, Hu.
  rewrite (prop_lookup _ _ _ Hname) in Hg, Hs, Hu.
  unfold encodeURIComponent in Hg, Hs, Hu. cbn [ToString] in Hg, Hs, Hu.
  destruct (Encode s) as [e|]; cbv zeta in Hg, Hs, Hu.
  - by rewrite (dispatched_one _ _ _ _ _ Hg), (dispatched_one _ _ _ _ _ Hs),
      (dispatched_one _ _ _ _ _ Hu).
  - by rewrite (dispatched_none _ _ _ _ Hg), (dispatched_none _ _ _ _ Hs),
      (dispatched_none _ _ _ _ Hu).
Qed.

(** Different names never meet in one uri: when [get], [subscribe] or
    [unsubscribe] dispatch the same uri for two names that are strings, the
    first of them well formed, the two names are the same string. *)
Theorem same_uri_same_name
  (params1 params2 : gmap string value) (s1 s2 : jsstring) :
  is_jsstring s1 → is_jsstring s2 → isWellFormed s1 = true →
  let p1 := Some (<["applicationName"%string := JString s1]> params1) in
  let p2 := Some (<["applicationName"%string := JString s2]> params2) in
  ((uri ∘ options)
     <$> dispatched (ApplicationsAPI.get server p1) (new config sent)
   = (uri ∘ options)
       <$> dispatched (ApplicationsAPI.get server p2) (new config sent) →
   s1 = s2)
  ∧ ((uri ∘ options)
       <$> dispatched (ApplicationsAPI.subscribe server p1) (new config sent)
     = (uri ∘ options)
         <$> dispatched (ApplicationsAPI.subscribe server p2)
               (new config sent) →
     s1 = s2)
  ∧ ((uri ∘ options)
       <$> dispatched (ApplicationsAPI.unsubscribe server p1)
             (new config sent)
     = (uri ∘ options)
         <$> dispatched (ApplicationsAPI.unsubscribe server p2)
               (new config sent) →
     s1 = s2).
Proof.
  intros Hs1 Hs2 Hwf. cbv zeta.
  destruct (name_uris _ s1 (lookup_insert_eq params1 _ (JString s1)))
    as (-> & -> & ->).
  destruct (name_uris _ s2 (lookup_insert_eq params2 _ (JString s2)))
    as (-> & -> & ->).
  destruct (Encode s1) as [e1|] eqn:He1.
  2: { apply Encode_None_iff in He1. congruence. }
  destruct (Encode s2) as [e2|] eqn:He2; cbn [from_option];
    [|by repeat split].
  assert (e1 = e2 → s1 = s2) as Hinj.
  { intros ->. by apply (Encode_inj s1 s2 e2). }
  repeat split; intros [= H]; apply Hinj;
    apply (app_inv_head (baseUrl_of config)) in H;
    apply (app_inv_head (lit "/applications/")) in H.
  - done.
  - by apply app_inv_tail in H.
  - by apply app_inv_tail in H.
Qed.

End Faithful.

(** ** Joining event sources *)

(** Joining a sequence made of two non-empty parts gives the two parts
    joined, with the separator between them; this holds for elements of any
    kind. *)
Theorem Array_join_app (l1 l2 : list value) (sep : jsstring) :
  l1 ≠ [] → l2 ≠ [] →
  Array_join (l1 ++ l2) sep
  = Array_join l1 sep ++ sep ++ Array_join l2 sep.
Proof.
  intros H1 H2. unfold Array_join.
  induction l1 as [|x l1 IH]; [done|]. destruct l1 as [|y rest].
  - destruct l2 as [|z l2]; [done|]. reflexivity.
  - change ((x :: y :: rest) ++ l2) with (x :: (y :: rest) ++ l2).
    change (join_with ToString sep (x :: (y :: rest) ++ l2))
      with (match x with
            | JUndefined | JNull => []
            | _ => ToString x
            end ++ sep ++ join_with ToString sep ((y :: rest) ++ l2)).
    rewrite IH by done.
    change (join_with ToString sep (x :: y :: rest))
      with (match x with
            | JUndefined | JNull => []
            | _ => ToString x
            end ++ sep ++ join_with ToString sep (y :: rest)).
    by rewrite <- !app_assoc.
Qed.

Lemma comma_joined_cons (x y : jsstring) (rest : list jsstring) :
  comma_joined (x :: y :: rest) = x ++ 44 :: comma_joined (y :: rest).
Proof. reflexivity. Qed.

Lemma comma_free_prefix (x y r1 r2 : jsstring) :
  44 ∉ x → 44 ∉ y → x ++ 44 :: r1 = y ++ 44 :: r2 → x = y ∧ r1 = r2.
Proof.
  revert y. induction x as [|c x IH]; intros [|d y] Hx Hy; cbn [app].
  - by intros [= ->].
  - intros [= <- _]. destruct Hy. apply list_elem_of_here.
  - intros [= -> _]. destruct Hx. apply list_elem_of_here.
  - intros [= -> E]. apply not_elem_of_cons in Hx as [_ Hx].
    apply not_elem_of_cons in Hy as [_ Hy].
    by apply IH in E as [-> ->].
Qed.

Lemma comma_joined_inj (xs ys : list jsstring) :
  Forall (λ x, 44 ∉ x) xs → Forall (λ y, 44 ∉ y) ys →
  xs ≠ [] → ys ≠ [] →
  comma_joined xs = comma_joined ys → xs = ys.
Proof.
  intros Hxs. revert ys.
  induction Hxs as [|x xs Hx Hxs IH]; intros ys Hys; [done|].
  destruct Hys as [|y ys Hy Hys]; [done|]. intros _ _.
  destruct xs as [|x2 xs], ys as [|y2 ys].
  - by intros [= ->].
  - rewrite comma_joined_cons. cbn [comma_joined]. intros ->.
    destruct Hx. apply elem_of_app. right. apply list_elem_of_here.
  - rewrite comma_joined_cons. cbn [comma_joined]. intros <-.
    destruct Hy. apply elem_of_app. right. apply list_elem_of_here.
  - rewrite !comma_joined_cons.
    intros [-> E]%comma_free_prefix; [|done..].
    f_equal. by apply IH.
Qed.

Lemma comma_joined_empty (xs : list jsstring) :
  comma_joined xs = [] ↔ xs = [] ∨ xs = [[]].
Proof.
  split; [|by intros [-> | ->]].
  destruct xs as [|x [|y rest]].
  - by left.
  - cbn [comma_joined]. intros ->. by right.
  - rewrite comma_joined_cons. intros [_ [=]]%app_eq_nil.
Qed.

Section EventSources.

Context {Body : Type}.
Variable server : list Request → Request → Reply Body.
Variable config : option (gmap string value).
Variable sent : list Request.

(** The [eventSource] parameter [subscribe] and [unsubscribe] dispatch for
    an event source of the documented type, the application name being one
    that can be encoded. *)
Lemma eventSource_parameter
  (params : gmap string value) (es : EventSource) (app : jsstring) :
  encodeURIComponent (prop params "applicationName") = inr app →
  let p := Some (<["eventSource"%string := EventSource_value es]> params) in
  (qs ∘ options)
    <$> dispatched (ApplicationsAPI.subscribe server p) (new config sent)
  = [Some [("eventSource"%string, comma_joined (EventSource_elements es))]]
  ∧ (qs ∘ options)
      <$> dispatched (ApplicationsAPI.unsubscribe server p) (new config sent)
    = [Some [("eventSource"%string,
              comma_joined (EventSource_elements es))]].
Proof.
  intros Happ. cbv zeta.
  pose proof (subscribe_run server config sent
                (Some (<["eventSource"%string := EventSource_value es]>
                         params))) as Hs.
  pose proof (unsubscribe_run server config sent
                (Some (<["eventSource"%string := EventSource_value es]>
                         params))) as Hu.
  change (default_params (Some ?o)) with o in Hs, Hu.
  rewrite prop_insert_eq, (prop_insert_ne _ "eventSource") in Hs, Hu by done.
  rewrite Happ, joined_EventSource in Hs, Hu. cbv zeta in Hs, Hu.
  by rewrite (dispatched_one _ _ _ _ _ Hs), (dispatched_one _ _ _ _ _ Hu).
Qed.

(** Identifiers without a comma are sent faithfully: two event sources,
    each naming at least one identifier and none with a comma in it, for
    which [subscribe] (or [unsubscribe]) dispatches the same [eventSource]
    parameter name the same identifiers in the same order. *)
Theorem comma_free_sources_sent_faithfully
  (params1 params2 : gmap string value) (es1 es2 : EventSource)
  (app1 app2 : jsstring) :
  encodeURIComponent (prop params1 "applicationName") = inr app1 →
  encodeURIComponent (prop params2 "applicationName") = inr app2 →
  Forall (λ x, 44 ∉ x) (EventSource_elements es1) →
  Forall (λ x, 44 ∉ x) (EventSource_elements es2) →
  EventSource_elements es1 ≠ [] → EventSource_elements es2 ≠ [] →
  let p1 := Some (<["eventSource"%string := EventSource_value es1]> params1) in
  let p2 := Some (<["eventSource"%string := EventSource_value es2]> params2) in
  ((qs ∘ options)
     <$> dispatched (ApplicationsAPI.subscribe server p1) (new config sent)
   = (qs ∘ options)
       <$> dispatched (ApplicationsAPI.subscribe server p2)
             (new config sent)
   → EventSource_elements es1 = EventSource_elements es2)
  ∧ ((qs ∘ options)
       <$> dispatched (ApplicationsAPI.unsubscribe server p1)
             (new config sent)
     = (qs ∘ options)
         <$> dispatched (ApplicationsAPI.unsubscribe server p2)
               (new config sent)
     → EventSource_elements es1 = EventSource_elements es2).
Proof.
  intros Happ1 Happ2 Hfree1 Hfree2 Hne1 Hne2. cbv zeta.
  destruct (eventSource_parameter params1 es1 app1 Happ1) as [-> ->].
  destruct (eventSource_parameter params2 es2 app2 Happ2) as [-> ->].
  split; intros [= H]; by apply comma_joined_inj.
Qed.

(** The [eventSource] parameter is the empty string for exactly three
    event sources of the documented type: the empty string, the empty
    sequence, and the sequence of one empty string. *)
Theorem eventSource_parameter_empty_iff
  (params : gmap string value) (es : EventSource) (app : jsstring) :
  encodeURIComponent (prop params "applicationName") = inr app →
  let p := Some (<["eventSource"%string := EventSource_value es]> params) in
  (qs ∘ options)
    <$> dispatched (ApplicationsAPI.subscribe server p) (new config sent)
  = [Some [("eventSource"%string, [])]]
  ↔ es = One [] ∨ es = Many [] ∨ es = Many [[]].
Proof.
  intros Happ. cbv zeta.
  destruct (eventSource_parameter params es app Happ) as [-> _].
  split.
  - intros [= H]. apply comma_joined_empty in H.
    destruct es as [s|xs]; cbn [EventSource_elements] in H.
    + destruct H as [[=] | [= ->]]. by left.
    + destruct H as [-> | ->]; auto.
  - by intros [-> | [-> | ->]].
Qed.

End EventSources.

(** What the client dispatches never depends on what the server replied:
    the same calls put the same requests on the wire against any two
    servers. *)
Theorem requests_do_not_depend_on_replies {Body : Type}
  (server server' : list Request → Request → Reply Body)
  (config : option (gmap string value)) (sent : list Request)
  (ks : list Call) :
  wire (invoke_all server ks (new config sent))
  = wire (invoke_all server' ks (new config sent)).
Proof.
  rewrite !invoke_all_world, !new_wire. f_equal. f_equal.
  apply map_ext. intros k. by apply dispatched_this_only.
Qed.

(** ** The further properties at concrete inputs *)

Lemma missing_baseUrl_witness :
  let config : option (gmap string value) :=
    Some {[ "username"%string := JString (lit "asterisk") ]} in
  let params : option (gmap string value) :=
    Some {[ "applicationName"%string := JString (lit "app1") ]} in
  let server := always (HttpResponse 200 app1) in
  (config = None ∨ (∃ c, config = Some c ∧ c !! "baseUrl"%string = None))
  ∧ encodeURIComponent (prop (default_params params) "applicationName")
    = inr (lit "app1")
  ∧ (uri ∘ options)
      <$> dispatched (ApplicationsAPI.list server) (new config [])
    = [lit "undefined/applications"]
  ∧ (uri ∘ options)
      <$> dispatched (ApplicationsAPI.get server params) (new config [])
    = [lit "undefined/applications/app1"]
  ∧ (uri ∘ options)
      <$> dispatched (ApplicationsAPI.subscribe server params) (new config [])
    = [lit "undefined/applications/app1/subscription"]
  ∧ (uri ∘ options)
      <$> dispatched (ApplicationsAPI.unsubscribe server params)
            (new config [])
    = [lit "undefined/applications/app1/subscription"].
Proof.
  intros config params server.
  assert (config = None
          ∨ (∃ c, config = Some c ∧ c !! "baseUrl"%string = None)) as H1.
  { right. eexists. split; reflexivity. }
  assert (encodeURIComponent (prop (default_params params) "applicationName")
          = inr (lit "app1")) as H2 by reflexivity.
  split; [exact H1|]. split; [exact H2|].
  exact (missing_baseUrl_is_sent_as_undefined server config [] params
           (lit "app1") H1 H2).
Defined.



(** The name [a b] and the name [a%20b] go to different uris. *)
Lemma same_uri_same_name_witness :
  let server := always (HttpResponse 200 app1) in
  is_jsstring (lit "a b") ∧ is_jsstring (lit "a%20b")
  ∧ isWellFormed (lit "a b") = true
  ∧ (uri ∘ options)
      <$> dispatched
            (ApplicationsAPI.get server
               (Some (<["applicationName"%string := JString (lit "a b")]> ∅)))
            (new ari_config [])
    ≠ (uri ∘ options)
        <$> dispatched
              (ApplicationsAPI.get server
                 (Some (<["applicationName"%string
                            := JString (lit "a%20b")]> ∅)))
              (new ari_config []).
Proof.
  intros server.
  assert (is_jsstring (lit "a b")) as H1
    by (apply (bool_decide_unpack _); vm_compute; exact I).
  assert (is_jsstring (lit "a%20b")) as H2
    by (apply (bool_decide_unpack _); vm_compute; exact I).
  assert (isWellFormed (lit "a b") = true) as H3 by reflexivity.
  split; [exact H1|]. split; [exact H2|]. split; [exact H3|].
  intros Heq.
  apply (proj1 (same_uri_same_name server ari_config [] ∅ ∅
                  (lit "a b") (lit "a%20b") H1 H2 H3)) in Heq.
  discriminate Heq.
Defined.

Lemma Array_join_app_witness :
  let l1 := [JString (lit "ch1"); JNull] in
  let l2 := [JString (lit "ch2")] in
  l1 ≠ [] ∧ l2 ≠ []
  ∧ Array_join (l1 ++ l2) (lit ",")
    = Array_join l1 (lit ",") ++ lit "," ++ Array_join l2 (lit ",").
Proof.
  intros l1 l2.
  assert (l1 ≠ []) as H1 by discriminate.
  assert (l2 ≠ []) as H2 by discriminate.
  split; [exact H1|]. split; [exact H2|].
  exact (Array_join_app l1 l2 (lit ",") H1 H2).
Defined.

(** The string [ch1] and the sequence of the one string [ch1] send the same
    parameter, and name the same identifier. *)
Lemma comma_free_sources_sent_faithfully_witness :
  let server := always (HttpResponse 200 app1) in
  let params : gmap string value :=
    {[ "applicationName"%string := JString (lit "app1") ]} in
  let es1 := One (lit "ch1") in
  let es2 := Many [lit "ch1"] in
  encodeURIComponent (prop params "applicationName") = inr (lit "app1")
  ∧ Forall (λ x, 44 ∉ x) (EventSource_elements es1)
  ∧ Forall (λ x, 44 ∉ x) (EventSource_elements es2)
  ∧ EventSource_elements es1 ≠ [] ∧ EventSource_elements es2 ≠ []
  ∧ ((qs ∘ options)
       <$> dispatched
             (ApplicationsAPI.subscribe server
                (Some (<["eventSource"%string := EventSource_value es1]>
                         params)))
             (new ari_config [])
     = (qs ∘ options)
         <$> dispatched
               (ApplicationsAPI.subscribe server
                  (Some (<["eventSource"%string := EventSource_value es2]>
                           params)))
               (new ari_config [])
     → EventSource_elements es1 = EventSource_elements es2).
Proof.
  intros server params es1 es2.
  assert (encodeURIComponent (prop params "applicationName")
          = inr (lit "app1")) as H1 by reflexivity.
  assert (Forall (λ x, 44 ∉ x) (EventSource_elements es1)) as H2
    by (apply (bool_decide_unpack _); vm_compute; exact I).
  assert (Forall (λ x, 44 ∉ x) (EventSource_elements es2)) as H3
    by (apply (bool_decide_unpack _); vm_compute; exact I).
  assert (EventSource_elements es1 ≠ []) as H4 by discriminate.
  assert (EventSource_elements es2 ≠ []) as H5 by discriminate.
  split; [exact H1|]. split; [exact H2|]. split; [exact H3|].
  split; [exact H4|]. split; [exact H5|].
  exact (proj1 (comma_free_sources_sent_faithfully server ari_config []
                  params params es1 es2 (lit "app1") (lit "app1")
                  H1 H1 H2 H3 H4 H5)).
Defined.

Lemma eventSource_parameter_empty_iff_witness :
  let server := always (HttpResponse 200 app1) in
  let params : gmap string value :=
    {[ "applicationName"%string := JString (lit "app1") ]} in
  encodeURIComponent (prop params "applicationName") = inr (lit "app1")
  ∧ ((qs ∘ options)
       <$> dispatched
             (ApplicationsAPI.subscribe server
                (Some (<["eventSource"%string
                           := EventSource_value (Many [[]])]> params)))
             (new ari_config [])
     = [Some [("eventSource"%string, [])]]
     ↔ Many [[]] = One [] ∨ Many [[]] = Many [] ∨ Many [[]] = Many [[]]).
Proof.
  intros server params.
  assert (encodeURIComponent (prop params "applicationName")
          = inr (lit "app1")) as H by reflexivity.
  split; [exact H|].
  exact (eventSource_parameter_empty_iff server ari_config [] params
           (Many [[]]) (lit "app1") H).
Defined.
